(** * State space models with the scale concentrated out of the likelihood

    A shallow embedding of the code of
    [examples/notebooks/statespace_concentrated_scale.ipynb]: the two model
    classes [LocalLevel] (cell 5) and [LocalLevelConcentrated] (cell 13), and
    the cell that prints the two SARIMAX fits side by side (cell 24).  The
    Kalman filter, the optimizer behind [fit] and the results object are the
    library's and appear only as parameters.

    The classes are written over an interface of float64 scalars ([Scalar]),
    since all but the two transforms are independent of the arithmetic; the
    arithmetic itself is IEEE 754 binary64 ([Binary64]), which is what numpy
    computes with.

    Item assignment [self[name, i, j] = v] mutates the model and can raise, so
    the methods live in a state monad whose state survives an exception. *)

From Stdlib Require Import List Bool Arith Lia Ascii String ZArith.
From Stdlib Require Import Floats.
Import ListNotations.

(** ** Scalars *)

(** What the two classes need from float64: the literals [0.] and [1.], and
    the two powers [x ** 2] and [x ** 0.5] (numpy evaluates a power with the
    scalar exponent 2 as [square] and with 0.5 as [sqrt]). *)
Class Scalar (F : Type) : Type := {
  fzero : F;
  fone : F;
  square : F -> F;
  sqrt_ : F -> F
}.

(** ** Python exceptions and the monad of methods *)

Inductive exn : Type :=
| IndexError
| TypeError
| ValueError.

Inductive outcome (A : Type) : Type :=
| Ok (a : A)
| Raise (e : exn).

Arguments Ok {A} a.
Arguments Raise {A} e.

(** A method on a mutable [self : S]: it yields a value or raises, and in both
    cases leaves a (possibly modified) object behind. *)
Definition M (S A : Type) : Type := S -> outcome A * S.

Definition ret {S A} (a : A) : M S A := fun s => (Ok a, s).

Definition raise {S A} (e : exn) : M S A := fun s => (Raise e, s).

Definition bind {S A B} (c : M S A) (k : A -> M S B) : M S B :=
  fun s =>
    match c s with
    | (Ok a, s') => k a s'
    | (Raise e, s') => (Raise e, s')
    end.

Declare Scope py_scope.
Delimit Scope py_scope with py.
Notation "x <- c ;; k" := (bind c (fun x => k))
  (at level 100, c at next level, right associativity) : py_scope.
Notation "c ;; k" := (bind c (fun _ => k))
  (at level 100, right associativity) : py_scope.
Open Scope py_scope.

(** [seq[i]] of a Python sequence, for a non-negative literal index. *)
Definition index {S A} (l : list A) (i : nat) : M S A :=
  match nth_error l i with
  | Some a => ret a
  | None => raise IndexError
  end.

(** ** The state space representation *)

Section Representation.
Context {F : Type}.

(** A time-invariant system matrix, by rows. *)
Definition matrix : Type := list (list F).

Fixpoint list_set {A} (i : nat) (v : A) (l : list A) : option (list A) :=
  match l, i with
  | [], _ => None
  | _ :: l', O => Some (v :: l')
  | a :: l', S i' => option_map (cons a) (list_set i' v l')
  end.

Definition mat_get (i j : nat) (m : matrix) : option F :=
  match nth_error m i with
  | Some row => nth_error row j
  | None => None
  end.

Definition mat_set (i j : nat) (v : F) (m : matrix) : option matrix :=
  match nth_error m i with
  | Some row =>
      match list_set j v row with
      | Some row' => list_set i row' m
      | None => None
      end
  | None => None
  end.

(** The part of a model the notebook touches: the named system matrices
    ([design], [obs_cov], [transition], [selection], [state_cov], and whatever
    else the base class holds) and the flag [ssm.filter_concentrated]. *)
Record Representation : Type := {
  matrices : string -> option matrix;
  filter_concentrated : bool
}.

(** [self[name, i, j]] *)
Definition getitem (self : Representation) (name : string) (i j : nat) : option F :=
  match matrices self name with
  | Some m => mat_get i j m
  | None => None
  end.

(** [self[name, i, j] = v]: an unknown name or an index outside the matrix
    raises [IndexError] and leaves the model as it was. *)
Definition setitem (name : string) (i j : nat) (v : F) : M Representation unit :=
  fun self =>
    match matrices self name with
    | Some m =>
        match mat_set i j v m with
        | Some m' =>
            (Ok tt,
             {| matrices := fun n => if String.eqb n name then Some m' else matrices self n;
                filter_concentrated := filter_concentrated self |})
        | None => (Raise IndexError, self)
        end
    | None => (Raise IndexError, self)
    end.

(** [self.ssm.filter_concentrated = b] *)
Definition set_filter_concentrated (b : bool) : M Representation unit :=
  fun self =>
    (Ok tt, {| matrices := matrices self; filter_concentrated := b |}).

(** [self'] differs from [self] at most in the matrix entries listed in
    [keys]: every other entry of every matrix, and the flag, are the same. *)
Definition unchanged_except (keys : list (string * nat * nat))
    (self self' : Representation) : Prop :=
  filter_concentrated self' = filter_concentrated self /\
  forall name i j, ~ In (name, i, j) keys -> getitem self' name i j = getitem self name i j.

(** A method that writes at most the entries listed in [keys], whether it
    returns or raises. *)
Definition writes_at_most {A} (keys : list (string * nat * nat))
    (c : M Representation A) : Prop :=
  forall self, unchanged_except keys self (snd (c self)).

End Representation.

Arguments matrix F : clear implicits.
Arguments Representation F : clear implicits.

(** ** The two model classes of the notebook *)

(** Both classes derive from the library class [sm.tsa.statespace.MLEModel],
    which is not part of the notebook.  Its constructor and its [update] are
    therefore parameters of the classes: [MLEModel_init endog k_states
    initialization] is the object [super().__init__] leaves behind, and
    [MLEModel_update params kwargs] is [super().update(params, **kwargs)], a
    method that may itself read and modify the object. *)

Module LocalLevel.
Section Class.
Context {F : Type} `{Scalar F}.
Variables Endog Kwargs : Type.
Variable MLEModel_init : Endog -> nat -> string -> Representation F.
Variable MLEModel_update : list F -> Kwargs -> M (Representation F) (list F).

Definition _start_params : list F := [fone; fone].
Definition _param_names : list string := ["var.level"; "var.irregular"]%string.

Definition __init__ (endog : Endog) : outcome unit * Representation F :=
  (setitem "design" 0 0 fone ;;
   setitem "transition" 0 0 fone ;;
   setitem "selection" 0 0 fone)
    (MLEModel_init endog 1 "diffuse").

Definition transform_params (unconstrained : list F) : list F :=
  map square unconstrained.

Definition untransform_params (unconstrained : list F) : list F :=
  map sqrt_ unconstrained.

Definition update (params : list F) (kwargs : Kwargs) : M (Representation F) unit :=
  params <- MLEModel_update params kwargs ;;
  p0 <- index params 0 ;;
  setitem "state_cov" 0 0 p0 ;;
  p1 <- index params 1 ;;
  setitem "obs_cov" 0 0 p1.
End Class.
Arguments __init__ {F _ Endog} MLEModel_init endog.
Arguments update {F Kwargs} MLEModel_update params kwargs _.
End LocalLevel.

Module LocalLevelConcentrated.
Section Class.
Context {F : Type} `{Scalar F}.
Variables Endog Kwargs : Type.
Variable MLEModel_init : Endog -> nat -> string -> Representation F.
Variable MLEModel_update : list F -> Kwargs -> M (Representation F) (list F).

Definition _start_params : list F := [fone].
Definition _param_names : list string := ["ratio.irregular"]%string.

Definition __init__ (endog : Endog) : outcome unit * Representation F :=
  (setitem "design" 0 0 fone ;;
   setitem "transition" 0 0 fone ;;
   setitem "selection" 0 0 fone ;;
   setitem "state_cov" 0 0 fone ;;
   set_filter_concentrated true)
    (MLEModel_init endog 1 "diffuse").

Definition transform_params (unconstrained : list F) : list F :=
  map square unconstrained.

Definition untransform_params (unconstrained : list F) : list F :=
  map sqrt_ unconstrained.

Definition update (params : list F) (kwargs : Kwargs) : M (Representation F) unit :=
  params <- MLEModel_update params kwargs ;;
  p0 <- index params 0 ;;
  setitem "obs_cov" 0 0 p0.
End Class.
Arguments __init__ {F _ Endog} MLEModel_init endog.
Arguments update {F Kwargs} MLEModel_update params kwargs _.
End LocalLevelConcentrated.

(** A model object receives many [update] calls while it is fitted; an
    exception of one call does not undo what the call had already written. *)
Definition run_updates {S P K} (update : P -> K -> M S unit) (calls : list (P * K)) (self : S) : S :=
  fold_left (fun s c => snd (update (fst c) (snd c) s)) calls self.

(** The inherited [update] converts and returns the parameters; it is assumed
    not to write to the model. *)
Definition leaves_model_alone {F P K A} (super_update : P -> K -> M (Representation F) A) : Prop :=
  forall params kwargs self, snd (super_update params kwargs self) = self.

(** ** A stand-in for the base class

    Used to run the classes at concrete inputs.  It follows what the library
    documents: the constructor allocates zero matrices of the matrices given by
    the number of observed series and of states and leaves
    [filter_concentrated] unset; [update] returns the parameters, transformed
    first when the caller passes [transformed=False], and touches nothing. *)

Module Base.
Section Base.
Context {F : Type} `{Scalar F}.

Definition zeros (rows cols : nat) : matrix F := repeat (repeat fzero cols) rows.

Definition MLEModel_init (k_endog : nat) (k_states : nat) (initialization : string)
  : Representation F :=
  {| matrices := fun name =>
       if String.eqb name "design" then Some (zeros k_endog k_states)
       else if String.eqb name "obs_intercept" then Some (zeros k_endog 1)
       else if String.eqb name "obs_cov" then Some (zeros k_endog k_endog)
       else if String.eqb name "transition" then Some (zeros k_states k_states)
       else if String.eqb name "state_intercept" then Some (zeros k_states 1)
       else if String.eqb name "selection" then Some (zeros k_states k_states)
       else if String.eqb name "state_cov" then Some (zeros k_states k_states)
       else None;
     filter_concentrated := false |}.

Definition MLEModel_update (transform_params : list F -> list F)
    (params : list F) (transformed : bool) : M (Representation F) (list F) :=
  ret (if transformed then params else transform_params params).
End Base.
End Base.

(** ** float64 *)

(** IEEE 754 binary64, as numpy computes. *)
Module Binary64.
#[global] Instance scalar : Scalar float := {
  fzero := 0%float;
  fone := 1%float;
  square := fun x => (x * x)%float;
  sqrt_ := PrimFloat.sqrt
}.

(** [x >= 0] is true, and [x] is not NaN ("real-valued"; the infinities count
    as values here). *)
Definition nonneg (x : float) : Prop := (0 <=? x)%float = true.
Definition not_nan (x : float) : Prop := PrimFloat.is_nan x = false.

(** The sign bit of a float in the specification format; NaN has none. *)
Definition has_sign (s : bool) (x : spec_float) : Prop :=
  match x with
  | S754_zero s' | S754_infinity s' | S754_finite s' _ _ => s' = s
  | S754_nan => False
  end.

(** [x] is zero, or its magnitude lies in [[2^-511, 2^511)], so that its
    square lies in the normal range [[2^-1022, 2^1022)] of float64 and
    neither overflows nor underflows. *)
Definition in_range (x : float) : bool :=
  (abs x =? 0)%float || ((0x1p-511 <=? abs x)%float && (abs x <? 0x1p511)%float).

(** Two arrays of one length whose entries compare equal under [==], as
    [(a == b).all()] does; [-0.0 == 0.0], and NaN equals nothing. *)
Definition array_equal (a b : list float) : Prop :=
  Forall2 (fun x y => (x =? y)%float = true) a b.
End Binary64.

(** [mrs] is what is left of the integer [m] after [k] right shifts in the
    rounding procedure of the IEEE specification: the quotient, the last bit
    shifted out, and whether any lower bit was set. *)
Definition shifted (m k : Z) (mrs : shr_record) : Prop :=
  exists low : Z,
    (m = shr_m mrs * 2 ^ k + low /\ 0 <= low < 2 ^ k /\
     (shr_r mrs = true <-> 2 ^ k <= 2 * low) /\
     (shr_s mrs = true <-> low <> 0 /\ 2 * low <> 2 ^ k))%Z.

(** ** The results the notebook prints (cell 24)

    [fit] and the results object it returns belong to the library.  The
    notebook reads three attributes of a results object in cell 24. *)

Record MLEResults (F : Type) : Type := {
  params : list F;
  scale : F;
  llf : F
}.

Arguments params {F} _.
Arguments scale {F} _.
Arguments llf {F} _.

(** The number of conversion specifiers of a [%]-format string ([%%] is a
    literal percent sign); [None] for a format that ends in a lone [%]. *)
Fixpoint count_specs (fmt : string) : option nat :=
  match fmt with
  | EmptyString => Some 0
  | String c rest =>
      if Ascii.eqb c "%"%char then
        match rest with
        | EmptyString => None
        | String c' rest' =>
            if Ascii.eqb c' "%"%char then count_specs rest'
            else option_map S (count_specs rest)
        end
      else count_specs rest
  end.

(** A printed line: the format string and the values put into it (how a
    float is rendered in decimal is not modelled). *)
Definition line (F : Type) : Type := (string * list F)%type.

(** [fmt % args]: Python raises [TypeError] unless there is exactly one
    argument per conversion specifier, and [ValueError] for an incomplete
    format. *)
Definition format {S F} (fmt : string) (args : list F) : M S (line F) :=
  match count_specs fmt with
  | Some n => if Nat.eqb n (List.length args) then ret (fmt, args) else raise TypeError
  | None => raise ValueError
  end.

Definition print {F} (l : line F) : M (list (line F)) unit :=
  fun stdout => (Ok tt, stdout ++ [l]).

Definition cell_24 {F} (res_ar res_ar_conc : MLEResults F) : M (list (line F)) unit :=
  print ("Loglikelihood"%string, []) ;;
  l <- format "- Original model:     %.4f" [llf res_ar] ;;
  print l ;;
  l <- format "- Concentrated model: %.4f" [llf res_ar_conc] ;;
  print l ;;
  print (String "010"%char "Parameters"%string, []) ;;
  l <- format "- Original model:     %.4f, %.4f, %.4f, %.4f" (params res_ar) ;;
  print l ;;
  l <- format "- Concentrated model: %.4f, %.4f, %.4f, %.4f"
         (params res_ar_conc ++ [scale res_ar_conc]) ;;
  print l.

(** ** Comparing the two local level fits (cell 20)

    The cell reads [res.params[0]], [res.params[1]], [res_conc.scale] and the
    product [res_conc.params[0] * res_conc.scale]. *)

(** float64 multiplication, which the classes themselves do not use. *)
Class Times (F : Type) : Type := times : F -> F -> F.

#[global] Instance times_binary64 : Times float := fun x y => (x * y)%float.

Definition cell_20 {F} `{Times F} (res res_conc : MLEResults F) : M (list (line F)) unit :=
  print ("Original model"%string, []) ;;
  p0 <- index (params res) 0 ;;
  l <- format "var.level     = %.5f" [p0] ;;
  print l ;;
  p1 <- index (params res) 1 ;;
  l <- format "var.irregular = %.5f" [p1] ;;
  print l ;;
  print (String "010"%char "Concentrated model"%string, []) ;;
  l <- format "scale         = %.5f" [scale res_conc] ;;
  print l ;;
  h <- index (params res_conc) 0 ;;
  l <- format "h * scale     = %.5f" [times h (scale res_conc)] ;;
  print l.

(** An inherited [update] that computes the vector it returns from its
    arguments alone, never raises and never writes to the model. *)
Definition returns_params {F P K} (super_update : P -> K -> M (Representation F) (list F)) : Prop :=
  forall params kwargs, exists ps, forall self, super_update params kwargs self = (Ok ps, self).

(** ** Item assignment *)

Section ItemLemmas.
Context {F : Type}.
Implicit Types (m : matrix F) (self s : Representation F).

Lemma list_set_same {A} (i : nat) (v : A) (l l' : list A) :
  list_set i v l = Some l' -> nth_error l' i = Some v.
Proof.
  revert i l'; induction l as [|a l IH]; intros [|i] l' E; simpl in E; try discriminate.
  - now inversion E.
  - destruct (list_set i v l) as [l1|] eqn:E1; simpl in E; inversion E; subst.
    simpl. now apply IH.
Qed.

Lemma list_set_other {A} (i k : nat) (v : A) (l l' : list A) :
  list_set i v l = Some l' -> k <> i -> nth_error l' k = nth_error l k.
Proof.
  revert i k l'; induction l as [|a l IH]; intros [|i] k l' E Hk; simpl in E; try discriminate.
  - inversion E; subst. destruct k; [contradiction|reflexivity].
  - destruct (list_set i v l) as [l1|] eqn:E1; simpl in E; inversion E; subst.
    destruct k; [reflexivity|]. simpl. apply (IH i); auto.
Qed.

Lemma list_set_defined {A} (i : nat) (v : A) (l : list A) :
  list_set i v l <> None <-> nth_error l i <> None.
Proof.
  revert i; induction l as [|a l IH]; intros [|i]; simpl; try tauto.
  - split; intros _; discriminate.
  - rewrite <- IH. destruct (list_set i v l); simpl; split; congruence.
Qed.

Lemma mat_set_same i j v m m' :
  mat_set i j v m = Some m' -> mat_get i j m' = Some v.
Proof.
  unfold mat_set, mat_get. destruct (nth_error m i) as [row|]; [|discriminate].
  destruct (list_set j v row) as [row'|] eqn:Er; [|discriminate].
  intros E. rewrite (list_set_same _ _ _ _ E). eapply list_set_same; eauto.
Qed.

Lemma mat_set_other i j a b v m m' :
  mat_set i j v m = Some m' -> (a, b) <> (i, j) -> mat_get a b m' = mat_get a b m.
Proof.
  unfold mat_set, mat_get. destruct (nth_error m i) as [row|] eqn:Ei; [|discriminate].
  destruct (list_set j v row) as [row'|] eqn:Er; [|discriminate].
  intros E Hab. destruct (Nat.eq_dec a i) as [->|Ha].
  - rewrite (list_set_same _ _ _ _ E), Ei.
    apply (list_set_other _ _ _ _ _ Er). congruence.
  - now rewrite (list_set_other _ _ _ _ _ E Ha).
Qed.

Lemma mat_set_defined i j v m :
  mat_set i j v m <> None <-> mat_get i j m <> None.
Proof.
  unfold mat_set, mat_get. destruct (nth_error m i) as [row|] eqn:Ei; [|tauto].
  rewrite <- (list_set_defined j v row).
  destruct (list_set j v row) as [row'|]; [|tauto].
  split; [congruence|]. intros _.
  apply list_set_defined. congruence.
Qed.

Lemma unchanged_refl keys self : unchanged_except keys self self.
Proof. split; auto. Qed.

Lemma unchanged_trans k1 k2 s1 s2 s3 :
  unchanged_except k1 s1 s2 -> unchanged_except k2 s2 s3 -> unchanged_except (k1 ++ k2) s1 s3.
Proof.
  intros [Hf1 H1] [Hf2 H2]. split; [congruence|].
  intros name i j Hn. rewrite H2, H1; auto; intros Hin; apply Hn, in_or_app; auto.
Qed.

Lemma unchanged_weaken k1 k2 s1 s2 :
  incl k1 k2 -> unchanged_except k1 s1 s2 -> unchanged_except k2 s1 s2.
Proof.
  intros Hi [Hf H1]. split; [assumption|]. intros name i j Hn. apply H1. auto.
Qed.

Lemma getitem_setitem_other name i j v self n a b :
  (n, a, b) <> (name, i, j) ->
  getitem (snd (setitem name i j v self)) n a b = getitem self n a b.
Proof.
  intros Hne. unfold setitem.
  destruct (matrices self name) as [m|] eqn:Em; [|reflexivity].
  destruct (mat_set i j v m) as [m'|] eqn:Es; [|reflexivity].
  unfold getitem; simpl. destruct (String.eqb_spec n name) as [->|Hn]; [|reflexivity].
  rewrite Em. apply (mat_set_other _ _ _ _ _ _ _ Es). congruence.
Qed.

Lemma setitem_frame name i j v self :
  unchanged_except [(name, i, j)] self (snd (setitem name i j v self)).
Proof.
  split.
  - unfold setitem. destruct (matrices self name) as [m|]; [|reflexivity].
    destruct (mat_set i j v m); reflexivity.
  - intros n a b Hn. apply getitem_setitem_other. intros E. apply Hn. left. now symmetry.
Qed.

Lemma setitem_written name i j v self :
  fst (setitem name i j v self) = Ok tt ->
  getitem (snd (setitem name i j v self)) name i j = Some v.
Proof.
  unfold setitem. destruct (matrices self name) as [m|] eqn:Em; [|discriminate].
  destruct (mat_set i j v m) as [m'|] eqn:Es; [|discriminate].
  intros _. unfold getitem; simpl. rewrite String.eqb_refl. eapply mat_set_same; eauto.
Qed.

Lemma setitem_ok_iff name i j v self :
  fst (setitem name i j v self) = Ok tt <-> getitem self name i j <> None.
Proof.
  unfold setitem, getitem. destruct (matrices self name) as [m|] eqn:Em.
  - rewrite <- (mat_set_defined i j v m).
    destruct (mat_set i j v m); simpl; split; congruence.
  - simpl; split; congruence.
Qed.

Lemma setitem_outcome name i j v self :
  fst (setitem name i j v self) = Ok tt \/
  setitem name i j v self = (Raise IndexError, self).
Proof.
  unfold setitem. destruct (matrices self name) as [m|]; [|now right].
  destruct (mat_set i j v m); [now left|now right].
Qed.

End ItemLemmas.

(** ** Frames of methods *)

Section Frames.
Context {F : Type}.
Implicit Types (self s : Representation F) (keys : list (string * nat * nat)).

Lemma writes_index {A} (l : list A) i : writes_at_most (F := F) [] (index l i).
Proof.
  intros self. unfold index. destruct (nth_error l i); apply unchanged_refl.
Qed.

Lemma writes_setitem name i j (v : F) : writes_at_most [(name, i, j)] (setitem name i j v).
Proof. intros self. apply setitem_frame. Qed.

Lemma writes_bind {A B} k1 k2 (c : M (Representation F) A) (f : A -> M (Representation F) B) :
  writes_at_most k1 c -> (forall a, writes_at_most k2 (f a)) ->
  writes_at_most (k1 ++ k2) (bind c f).
Proof.
  intros Hc Hf self. unfold bind. specialize (Hc self).
  destruct (c self) as [[a|e] s1]; simpl in Hc.
  - eapply unchanged_trans; [exact Hc|apply Hf].
  - eapply unchanged_weaken; [|exact Hc]. apply incl_appl, incl_refl.
Qed.

Lemma writes_super {P K A} (super_update : P -> K -> M (Representation F) A) p kw :
  leaves_model_alone super_update -> writes_at_most [] (super_update p kw).
Proof. intros Hs self. rewrite Hs. apply unchanged_refl. Qed.

(** Many calls of a method with a fixed frame stay within that frame. *)
Lemma run_updates_frame {P K} keys (update : P -> K -> M (Representation F) unit) :
  (forall p kw, writes_at_most keys (update p kw)) ->
  forall calls self, unchanged_except keys self (run_updates update calls self).
Proof.
  intros Hu calls; induction calls as [|[p kw] calls IH]; intros self; simpl.
  - apply unchanged_refl.
  - eapply unchanged_weaken; [|eapply unchanged_trans; [apply (Hu p kw self)|apply IH]].
    intros x Hx. apply in_app_or in Hx. tauto.
Qed.

End Frames.

Section ClassLemmas.
Context {F : Type} `{Scalar F} {Endog Kwargs : Type}.
Variable MLEModel_init : Endog -> nat -> string -> Representation F.
Variable MLEModel_update : list F -> Kwargs -> M (Representation F) (list F).
Hypothesis super_pure : leaves_model_alone MLEModel_update.

Lemma LocalLevel_update_writes params kwargs :
  writes_at_most [("state_cov", 0, 0); ("obs_cov", 0, 0)]%string
    (LocalLevel.update MLEModel_update params kwargs).
Proof.
  unfold LocalLevel.update.
  apply (writes_bind [] _); [now apply writes_super|]; intros ps.
  apply (writes_bind [] _); [apply writes_index|]; intros p0.
  apply (writes_bind [_] [_]); [apply writes_setitem|]; intros _.
  apply (writes_bind [] _); [apply writes_index|]; intros p1.
  apply writes_setitem.
Qed.

Lemma LocalLevelConcentrated_update_writes params kwargs :
  writes_at_most [("obs_cov", 0, 0)]%string
    (LocalLevelConcentrated.update MLEModel_update params kwargs).
Proof.
  unfold LocalLevelConcentrated.update.
  apply (writes_bind [] _); [now apply writes_super|]; intros ps.
  apply (writes_bind [] _); [apply writes_index|]; intros p0.
  apply writes_setitem.
Qed.

Lemma setitem_step name i j (v : F) s r s' :
  setitem name i j v s = (r, s') ->
  (r = Ok tt -> getitem s' name i j = Some v) /\
  (forall n a b, (n, a, b) <> (name, i, j) -> getitem s' n a b = getitem s n a b) /\
  filter_concentrated s' = filter_concentrated s.
Proof.
  intros E. repeat split.
  - intros ->. replace s' with (snd (setitem name i j v s)) by now rewrite E.
    apply setitem_written. now rewrite E.
  - intros n a b Hn. replace s' with (snd (setitem name i j v s)) by now rewrite E.
    now apply getitem_setitem_other.
  - replace s' with (snd (setitem name i j v s)) by now rewrite E.
    apply setitem_frame.
Qed.

(** What the constructors leave behind when they return. *)
Lemma LocalLevel_init_entries endog self :
  LocalLevel.__init__ MLEModel_init endog = (Ok tt, self) ->
  getitem self "design" 0 0 = Some fone /\
  getitem self "transition" 0 0 = Some fone /\
  getitem self "selection" 0 0 = Some fone.
Proof.
  unfold LocalLevel.__init__, bind.
  destruct (setitem "design" 0 0 fone _) as [[[]|e1] s1] eqn:E1; [|discriminate].
  destruct (setitem "transition" 0 0 fone s1) as [[[]|e2] s2] eqn:E2; [|discriminate].
  destruct (setitem "selection" 0 0 fone s2) as [[[]|e3] s3] eqn:E3; [|discriminate].
  intros E; inversion E; subst s3; clear E.
  apply setitem_step in E1, E2, E3.
  destruct E1 as (W1 & _ & _), E2 as (W2 & O2 & _), E3 as (W3 & O3 & _).
  repeat split.
  - rewrite O3, O2 by discriminate. auto.
  - rewrite O3 by discriminate. auto.
  - auto.
Qed.

Lemma LocalLevelConcentrated_init_entries endog self :
  LocalLevelConcentrated.__init__ MLEModel_init endog = (Ok tt, self) ->
  getitem self "design" 0 0 = Some fone /\
  getitem self "transition" 0 0 = Some fone /\
  getitem self "selection" 0 0 = Some fone /\
  getitem self "state_cov" 0 0 = Some fone /\
  filter_concentrated self = true.
Proof.
  unfold LocalLevelConcentrated.__init__, bind.
  destruct (setitem "design" 0 0 fone _) as [[[]|e1] s1] eqn:E1; [|discriminate].
  destruct (setitem "transition" 0 0 fone s1) as [[[]|e2] s2] eqn:E2; [|discriminate].
  destruct (setitem "selection" 0 0 fone s2) as [[[]|e3] s3] eqn:E3; [|discriminate].
  destruct (setitem "state_cov" 0 0 fone s3) as [[[]|e4] s4] eqn:E4; [|discriminate].
  unfold set_filter_concentrated.
  intros E; inversion E; subst self; clear E.
  apply setitem_step in E1, E2, E3, E4.
  destruct E1 as (W1 & _ & _), E2 as (W2 & O2 & _), E3 as (W3 & O3 & _), E4 as (W4 & O4 & _).
  unfold getitem in *; simpl. repeat split.
  - rewrite O4, O3, O2 by discriminate. auto.
  - rewrite O4, O3 by discriminate. auto.
  - rewrite O4 by discriminate. auto.
  - auto.
Qed.

End ClassLemmas.

(** ** The frame of [update] *)

(** C9.  Provided the inherited [update] does not write to the model, every
    call of [LocalLevel.update], returning or raising, leaves all of the model
    unchanged except possibly [state_cov[0,0]] and [obs_cov[0,0]], and every
    call of [LocalLevelConcentrated.update] leaves all of it unchanged except
    possibly [obs_cov[0,0]].  Hence after any sequence of [update] calls on a
    constructed model, [design[0,0]], [transition[0,0]] and [selection[0,0]]
    are still the 1 the constructor wrote, and for the concentrated class so
    are [state_cov[0,0] = 1] and [filter_concentrated = True]. *)
Theorem update_frame (F : Type) `{Scalar F} (Endog Kwargs : Type)
    (MLEModel_init : Endog -> nat -> string -> Representation F)
    (MLEModel_update : list F -> Kwargs -> M (Representation F) (list F)) :
  leaves_model_alone MLEModel_update ->
  (forall params kwargs self,
      unchanged_except [("state_cov", 0, 0); ("obs_cov", 0, 0)]%string self
        (snd (LocalLevel.update MLEModel_update params kwargs self))) /\
  (forall params kwargs self,
      unchanged_except [("obs_cov", 0, 0)]%string self
        (snd (LocalLevelConcentrated.update MLEModel_update params kwargs self))) /\
  (forall endog self calls,
      LocalLevel.__init__ MLEModel_init endog = (Ok tt, self) ->
      let self' := run_updates (LocalLevel.update MLEModel_update) calls self in
      getitem self' "design" 0 0 = Some fone /\
      getitem self' "transition" 0 0 = Some fone /\
      getitem self' "selection" 0 0 = Some fone) /\
  (forall endog self calls,
      LocalLevelConcentrated.__init__ MLEModel_init endog = (Ok tt, self) ->
      let self' := run_updates (LocalLevelConcentrated.update MLEModel_update) calls self in
      getitem self' "design" 0 0 = Some fone /\
      getitem self' "transition" 0 0 = Some fone /\
      getitem self' "selection" 0 0 = Some fone /\
      getitem self' "state_cov" 0 0 = Some fone /\
      filter_concentrated self' = true).
Proof.
  intros Hs. split; [|split; [|split]].
  - intros params kwargs. now apply LocalLevel_update_writes.
  - intros params kwargs. now apply LocalLevelConcentrated_update_writes.
  - intros endog self calls Hinit self'.
    destruct (LocalLevel_init_entries _ _ _ Hinit) as (Hd & Ht & Hsel).
    destruct (run_updates_frame _ _ (LocalLevel_update_writes _ Hs) calls self) as [_ Hfr].
    fold self' in Hfr.
    rewrite !Hfr; [auto| | |]; simpl; intros [E|[E|[]]]; discriminate E.
  - intros endog self calls Hinit self'.
    destruct (LocalLevelConcentrated_init_entries _ _ _ Hinit) as (Hd & Ht & Hsel & Hsc & Hfc).
    destruct (run_updates_frame _ _ (LocalLevelConcentrated_update_writes _ Hs) calls self)
      as [Hflag Hfr].
    fold self' in Hfr, Hflag.
    rewrite Hflag, !Hfr; [auto| | | |]; simpl; intros [E|[]]; discriminate E.
Qed.

Lemma update_frame_witness :
  let upd := Base.MLEModel_update (LocalLevel.transform_params (F := float)) in
  let self := snd (LocalLevel.__init__ (Base.MLEModel_init (F := float)) 1) in
  getitem (run_updates (LocalLevel.update upd)
             [([2; 3]%float, true); ([5]%float, false)] self) "design" 0 0
  = Some 1%float.
Proof.
  intros upd self.
  destruct (update_frame float nat bool Base.MLEModel_init upd) as (_ & _ & Hkeep & _).
  - intros params kwargs s. reflexivity.
  - apply (Hkeep 1 self [([2; 3]%float, true); ([5]%float, false)]). reflexivity.
Defined.

(** ** Binary64: a square is never negative *)

Section Rounding.
Variables prec emax : Z.

Lemma shr_1_nonneg mrs : (0 <= shr_m mrs)%Z -> (0 <= shr_m (shr_1 mrs))%Z.
Proof.
  destruct mrs as [m r s]; simpl. destruct m as [|p|p]; simpl; intros Hm; try lia.
  destruct p; simpl; lia.
Qed.

Lemma iter_shr_1_nonneg p :
  forall mrs, (0 <= shr_m mrs)%Z -> (0 <= shr_m (iter_pos shr_1 p mrs))%Z.
Proof.
  induction p as [p IH|p IH|]; intros mrs Hm; simpl.
  - apply IH, IH, shr_1_nonneg, Hm.
  - apply IH, IH, Hm.
  - apply shr_1_nonneg, Hm.
Qed.

Lemma shr_fexp_nonneg m e l :
  (0 <= m)%Z -> (0 <= shr_m (fst (shr_fexp prec emax m e l)))%Z.
Proof.
  intros Hm. unfold shr_fexp, shr.
  assert (H0 : (0 <= shr_m (shr_record_of_loc m l))%Z) by (destruct l as [|[]]; exact Hm).
  destruct (fexp prec emax (Zdigits2 m + e) - e)%Z; simpl; auto.
  now apply iter_shr_1_nonneg.
Qed.

Lemma round_nearest_even_nonneg m l : (0 <= m)%Z -> (0 <= round_nearest_even m l)%Z.
Proof.
  intros Hm. destruct l as [|[]]; simpl; try lia.
  destruct (Z.even m); lia.
Qed.

(** Rounding a non-negative mantissa gives a zero, a finite number or an
    infinity of the requested sign, never NaN. *)
Lemma binary_round_aux_sign sx mx ex lx :
  (0 <= mx)%Z -> Binary64.has_sign sx (binary_round_aux prec emax sx mx ex lx).
Proof.
  intros Hm. unfold binary_round_aux.
  pose proof (shr_fexp_nonneg mx ex lx Hm) as H1.
  destruct (shr_fexp prec emax mx ex lx) as [mrs1 e1]. simpl in H1.
  pose proof (shr_fexp_nonneg _ e1 loc_Exact
                (round_nearest_even_nonneg _ (loc_of_shr_record mrs1) H1)) as H2.
  destruct (shr_fexp prec emax _ e1 loc_Exact) as [mrs2 e2]. simpl in H2.
  destruct (shr_m mrs2) as [|p|p]; simpl.
  - reflexivity.
  - destruct (e2 <=? emax - prec)%Z; reflexivity.
  - lia.
Qed.

Lemma SFmul_self_sign x :
  x <> S754_nan -> Binary64.has_sign false (SFmul prec emax x x).
Proof.
  destruct x as [s|s| |s m e]; simpl; intros Hx.
  - apply xorb_nilpotent.
  - apply xorb_nilpotent.
  - contradiction.
  - rewrite xorb_nilpotent. apply binary_round_aux_sign. lia.
Qed.

End Rounding.

Lemma SFleb_zero_sign x : Binary64.has_sign false x -> SFleb (S754_zero false) x = true.
Proof. destruct x as [s|s| |s m e]; simpl; intros Hx; subst; auto; contradiction. Qed.

Lemma not_nan_Prim2SF x : Binary64.not_nan x -> Prim2SF x <> S754_nan.
Proof.
  unfold Binary64.not_nan, is_nan. rewrite eqb_spec. intros Hx E.
  rewrite E in Hx. discriminate Hx.
Qed.

Lemma square_nonneg (x : float) : Binary64.not_nan x -> Binary64.nonneg (square x).
Proof.
  intros Hx. unfold Binary64.nonneg. simpl.
  rewrite leb_spec, mul_spec.
  apply SFleb_zero_sign, SFmul_self_sign, not_nan_Prim2SF, Hx.
Qed.

Lemma sqrtrem_nonneg n : (0 <= fst (Z.sqrtrem n))%Z.
Proof.
  destruct n as [|p|p]; simpl; try lia.
  destruct (Pos.sqrtrem p) as [s [|r|]]; simpl; lia.
Qed.

Lemma SFsqrt_sign prec emax x :
  Binary64.has_sign false x -> Binary64.has_sign false (SFsqrt prec emax x).
Proof.
  destruct x as [s|s| |s m e]; simpl; intros Hx; subst; simpl; auto.
  unfold SFsqrt_core_binary.
  match goal with |- context [Z.sqrtrem ?n] =>
    pose proof (sqrtrem_nonneg n) as Hq; destruct (Z.sqrtrem n) as [q r] end.
  simpl in Hq. now apply binary_round_aux_sign.
Qed.

Lemma sqrt_square_nonneg (x : float) :
  Binary64.not_nan x -> Binary64.nonneg (sqrt_ (square x)).
Proof.
  intros Hx. unfold Binary64.nonneg. simpl.
  rewrite leb_spec, sqrt_spec, mul_spec.
  apply SFleb_zero_sign, SFsqrt_sign, SFmul_self_sign, not_nan_Prim2SF, Hx.
Qed.

(** ** What [update] writes *)

Section Written.
Context {F : Type} {Kwargs : Type}.
Variable MLEModel_update : list F -> Kwargs -> M (Representation F) (list F).

(** When [update] returns, the two covariance entries hold the first two
    entries of the vector the inherited [update] returned. *)
Lemma LocalLevel_update_written params kwargs self ps s1 self' :
  MLEModel_update params kwargs self = (Ok ps, s1) ->
  LocalLevel.update MLEModel_update params kwargs self = (Ok tt, self') ->
  exists p0 p1,
    nth_error ps 0 = Some p0 /\ nth_error ps 1 = Some p1 /\
    getitem self' "state_cov" 0 0 = Some p0 /\
    getitem self' "obs_cov" 0 0 = Some p1.
Proof.
  intros Hs. unfold LocalLevel.update, bind, index. rewrite Hs.
  destruct (nth_error ps 0) as [p0|]; [|discriminate]. unfold ret at 1.
  destruct (setitem "state_cov" 0 0 p0 s1) as [[[]|e1] s2] eqn:E1; [|discriminate].
  destruct (nth_error ps 1) as [p1|]; [|discriminate]. unfold ret.
  destruct (setitem "obs_cov" 0 0 p1 s2) as [[[]|e2] s3] eqn:E2; [|discriminate].
  intros E; inversion E; subst s3; clear E.
  apply setitem_step in E1, E2.
  destruct E1 as (W1 & _ & _), E2 as (W2 & O2 & _).
  exists p0, p1. repeat split; auto.
  rewrite O2 by discriminate. auto.
Qed.

Lemma LocalLevelConcentrated_update_written params kwargs self ps s1 self' :
  MLEModel_update params kwargs self = (Ok ps, s1) ->
  LocalLevelConcentrated.update MLEModel_update params kwargs self = (Ok tt, self') ->
  exists p0, nth_error ps 0 = Some p0 /\ getitem self' "obs_cov" 0 0 = Some p0.
Proof.
  intros Hs. unfold LocalLevelConcentrated.update, bind, index. rewrite Hs.
  destruct (nth_error ps 0) as [p0|]; [|discriminate]. unfold ret.
  destruct (setitem "obs_cov" 0 0 p0 s1) as [[[]|e1] s2] eqn:E1; [|discriminate].
  intros E; inversion E; subst s2; clear E.
  apply setitem_step in E1. destruct E1 as (W1 & _ & _).
  exists p0. auto.
Qed.

(** [update] needs as many parameters as the class declares: with fewer it
    raises [IndexError]. *)
Lemma LocalLevel_update_short params kwargs self ps s1 :
  MLEModel_update params kwargs self = (Ok ps, s1) ->
  List.length ps < 2 ->
  fst (LocalLevel.update MLEModel_update params kwargs self) = Raise IndexError.
Proof.
  intros Hs Hl. unfold LocalLevel.update, bind, index. rewrite Hs.
  destruct ps as [|p0 [|p1 ps]]; simpl in Hl; try lia; simpl; [reflexivity|].
  unfold ret. destruct (setitem_outcome "state_cov" 0 0 p0 s1) as [E|E].
  - destruct (setitem "state_cov" 0 0 p0 s1) as [[[]|e] s2]; simpl in E; [reflexivity|discriminate].
  - rewrite E. reflexivity.
Qed.

Lemma LocalLevelConcentrated_update_short params kwargs self s1 :
  MLEModel_update params kwargs self = (Ok [], s1) ->
  fst (LocalLevelConcentrated.update MLEModel_update params kwargs self) = Raise IndexError.
Proof.
  intros Hs. unfold LocalLevelConcentrated.update, bind, index. rewrite Hs. reflexivity.
Qed.

End Written.

(** ** When [update] returns *)

Section Returns.
Context {F : Type} `{Scalar F} {Endog Kwargs : Type}.
Variable MLEModel_init : Endog -> nat -> string -> Representation F.
Variable MLEModel_update : list F -> Kwargs -> M (Representation F) (list F).

Lemma setitem_ok name i j (v : F) s :
  getitem s name i j <> None ->
  exists s', setitem name i j v s = (Ok tt, s').
Proof.
  intros Hg. apply (setitem_ok_iff name i j v) in Hg.
  destruct (setitem name i j v s) as [[[]|e] s']; simpl in Hg; [eauto|discriminate].
Qed.

(** With two parameters and both covariance matrices at least 1 x 1,
    [LocalLevel.update] returns. *)
Lemma LocalLevel_update_returns params kwargs self p0 p1 ps s1 :
  MLEModel_update params kwargs self = (Ok (p0 :: p1 :: ps), s1) ->
  getitem s1 "state_cov" 0 0 <> None ->
  getitem s1 "obs_cov" 0 0 <> None ->
  fst (LocalLevel.update MLEModel_update params kwargs self) = Ok tt.
Proof.
  intros Hs H0 H1. unfold LocalLevel.update, bind, index. rewrite Hs. simpl. unfold ret.
  destruct (setitem_ok "state_cov" 0 0 p0 s1 H0) as [s2 E2]. rewrite E2.
  apply setitem_step in E2. destruct E2 as (_ & O2 & _).
  rewrite <- O2 in H1 by discriminate.
  destruct (setitem_ok "obs_cov" 0 0 p1 s2 H1) as [s3 E3]. now rewrite E3.
Qed.

Lemma LocalLevelConcentrated_update_returns params kwargs self p0 ps s1 :
  MLEModel_update params kwargs self = (Ok (p0 :: ps), s1) ->
  getitem s1 "obs_cov" 0 0 <> None ->
  fst (LocalLevelConcentrated.update MLEModel_update params kwargs self) = Ok tt.
Proof.
  intros Hs H0. unfold LocalLevelConcentrated.update, bind, index. rewrite Hs. simpl. unfold ret.
  destruct (setitem_ok "obs_cov" 0 0 p0 s1 H0) as [s2 E2]. now rewrite E2.
Qed.

Lemma setitem_flag name i j (v : F) s b :
  setitem name i j v {| matrices := matrices s; filter_concentrated := b |}
  = (fst (setitem name i j v s),
     {| matrices := matrices (snd (setitem name i j v s)); filter_concentrated := b |}).
Proof.
  unfold setitem; simpl. destruct (matrices s name) as [m|]; [|reflexivity].
  destruct (mat_set i j v m); reflexivity.
Qed.

(** X12.  The concentrated class is the unconcentrated one with [var.level]
    held at 1: updating a [LocalLevelConcentrated] model with [[h]] leaves the
    same system matrices as updating a [LocalLevel] model with [[1, h]]; only
    the flag [filter_concentrated] tells them apart. *)
Lemma concentrated_is_level_one endog h kwargs kwargs' :
  (forall s, MLEModel_update [fone; h] kwargs s = (Ok [fone; h], s)) ->
  (forall s, MLEModel_update [h] kwargs' s = (Ok [h], s)) ->
  fst (LocalLevelConcentrated.__init__ MLEModel_init endog) = Ok tt ->
  let ll := LocalLevel.update MLEModel_update [fone; h] kwargs
              (snd (LocalLevel.__init__ MLEModel_init endog)) in
  let conc := LocalLevelConcentrated.update MLEModel_update [h] kwargs'
              (snd (LocalLevelConcentrated.__init__ MLEModel_init endog)) in
  fst ll = fst conc /\
  (forall name i j, getitem (snd ll) name i j = getitem (snd conc) name i j) /\
  filter_concentrated (snd conc) = true.
Proof.
  intros H2 H1. unfold LocalLevel.__init__, LocalLevelConcentrated.__init__,
    LocalLevel.update, LocalLevelConcentrated.update, bind, index, set_filter_concentrated.
  destruct (setitem "design" 0 0 fone _) as [[[]|e1] s1]; [|discriminate].
  destruct (setitem "transition" 0 0 fone s1) as [[[]|e2] s2]; [|discriminate].
  destruct (setitem "selection" 0 0 fone s2) as [[[]|e3] s3]; [|discriminate].
  rewrite H2. simpl. unfold ret.
  destruct (setitem "state_cov" 0 0 fone s3) as [[[]|e4] s4]; [|discriminate].
  intros _. simpl. rewrite H1. simpl. rewrite setitem_flag.
  destruct (setitem "obs_cov" 0 0 h s4) as [[[]|e5] s5]; simpl; auto.
Qed.

End Returns.

(** Both classes run on the stand-in base class: the constructors return, and
    so does [update] on a vector of the declared length; a shorter vector
    raises after [state_cov[0,0]] has been written. *)
Example LocalLevel_runs :
  let upd := Base.MLEModel_update (LocalLevel.transform_params (F := float)) in
  let self := LocalLevel.__init__ (Base.MLEModel_init (F := float)) 1 in
  let self' := LocalLevel.update upd [2; -3]%float false (snd self) in
  let self'' := LocalLevel.update upd [5]%float true (snd self') in
  fst self = Ok tt /\ fst self' = Ok tt /\
  getitem (snd self') "state_cov" 0 0 = Some 4%float /\
  getitem (snd self') "obs_cov" 0 0 = Some 9%float /\
  fst self'' = Raise IndexError /\
  getitem (snd self'') "state_cov" 0 0 = Some 5%float /\
  getitem (snd self'') "obs_cov" 0 0 = Some 9%float.
Proof. repeat split. Qed.

Example LocalLevelConcentrated_runs :
  let upd := Base.MLEModel_update (LocalLevelConcentrated.transform_params (F := float)) in
  let self := LocalLevelConcentrated.__init__ (Base.MLEModel_init (F := float)) 1 in
  let self' := LocalLevelConcentrated.update upd [-3]%float false (snd self) in
  fst self = Ok tt /\ fst self' = Ok tt /\
  getitem (snd self') "state_cov" 0 0 = Some 1%float /\
  getitem (snd self') "obs_cov" 0 0 = Some 9%float /\
  filter_concentrated (snd self') = true.
Proof. repeat split. Qed.

Lemma transform_nonneg (u : list float) :
  Forall Binary64.not_nan u -> Forall Binary64.nonneg (map square u).
Proof.
  intros Hu. apply Forall_map. eapply Forall_impl; [|exact Hu].
  intros x Hx. now apply square_nonneg.
Qed.

(** ** Variances are non-negative *)

(** C10.  In binary64, for every vector [u] without NaN,
    [transform_params u = u ** 2] is elementwise [>= 0], for both classes; and
    whenever the inherited [update] hands [transform_params u] on, the entries
    that [update] has written when it returns ([state_cov[0,0]] and
    [obs_cov[0,0]] for [LocalLevel], [obs_cov[0,0]] for
    [LocalLevelConcentrated]) are [>= 0]. *)
Theorem transform_params_nonneg (u : list float) :
  Forall Binary64.not_nan u ->
  Forall Binary64.nonneg (LocalLevel.transform_params u) /\
  Forall Binary64.nonneg (LocalLevelConcentrated.transform_params u) /\
  (forall Kwargs (MLEModel_update : list float -> Kwargs -> M (Representation float) (list float))
          params kwargs self s1 self',
      MLEModel_update params kwargs self = (Ok (LocalLevel.transform_params u), s1) ->
      LocalLevel.update MLEModel_update params kwargs self = (Ok tt, self') ->
      exists v0 v1,
        getitem self' "state_cov" 0 0 = Some v0 /\ Binary64.nonneg v0 /\
        getitem self' "obs_cov" 0 0 = Some v1 /\ Binary64.nonneg v1) /\
  (forall Kwargs (MLEModel_update : list float -> Kwargs -> M (Representation float) (list float))
          params kwargs self s1 self',
      MLEModel_update params kwargs self
        = (Ok (LocalLevelConcentrated.transform_params u), s1) ->
      LocalLevelConcentrated.update MLEModel_update params kwargs self = (Ok tt, self') ->
      exists v0,
        getitem self' "obs_cov" 0 0 = Some v0 /\ Binary64.nonneg v0).
Proof.
  intros Hu. pose proof (transform_nonneg u Hu) as Hn.
  pose proof (proj1 (Forall_forall _ _) Hn) as Hin.
  split; [exact Hn|split; [exact Hn|split]].
  - intros Kwargs upd params kwargs self s1 self' Hs Hupd.
    destruct (LocalLevel_update_written _ _ _ _ _ _ _ Hs Hupd) as (p0 & p1 & N0 & N1 & G0 & G1).
    exists p0, p1. repeat split; auto; apply Hin; eapply nth_error_In; eauto.
  - intros Kwargs upd params kwargs self s1 self' Hs Hupd.
    destruct (LocalLevelConcentrated_update_written _ _ _ _ _ _ _ Hs Hupd) as (p0 & N0 & G0).
    exists p0. split; auto. apply Hin; eapply nth_error_In; eauto.
Qed.

Lemma transform_params_nonneg_witness :
  let u := [2; -3]%float in
  let upd := Base.MLEModel_update (LocalLevel.transform_params (F := float)) in
  let self := snd (LocalLevel.__init__ (Base.MLEModel_init (F := float)) 1) in
  let self' := snd (LocalLevel.update upd u false self) in
  exists v0 v1,
    getitem self' "state_cov" 0 0 = Some v0 /\ Binary64.nonneg v0 /\
    getitem self' "obs_cov" 0 0 = Some v1 /\ Binary64.nonneg v1.
Proof.
  intros u upd self self'.
  assert (Hu : Forall Binary64.not_nan u) by (repeat (constructor; [reflexivity|]); constructor).
  destruct (transform_params_nonneg u Hu) as (_ & _ & Hwritten & _).
  apply (Hwritten bool upd u false self self self'); reflexivity.
Defined.

(** ** The round trip between constrained and unconstrained parameters *)

(** C8, in binary64 as numpy computes it: the constrained vector [[2.0]] is
    non-negative, but squaring its square root gives [[2.0000000000000004]]. *)
Lemma round_trip_binary64_counterexample :
  Forall Binary64.nonneg [2%float] /\
  LocalLevel.transform_params (LocalLevel.untransform_params [2%float])
    = [0x1.0000000000001p+1%float] /\
  LocalLevel.transform_params (LocalLevel.untransform_params [2%float]) <> [2%float].
Proof.
  split; [|split].
  - repeat constructor.
  - reflexivity.
  - intros E.
    assert (E' : PrimFloat.eqb (hd 0%float (LocalLevel.transform_params
                                  (LocalLevel.untransform_params [2%float]))) 2 = true)
      by (rewrite E; reflexivity).
    vm_compute in E'. discriminate E'.
Qed.

(** Where the square root is exact the binary64 round trip is exact too; from
    the unconstrained side it loses the sign, and overflow and underflow of the
    square besides. *)
Example binary64_round_trip_exact :
  LocalLevel.transform_params (LocalLevel.untransform_params [4; 0.25; 0]%float)
  = [4; 0.25; 0]%float.
Proof. reflexivity. Qed.

Example binary64_round_trip_unconstrained :
  LocalLevel.untransform_params (LocalLevel.transform_params [-3; 0x1p600; 0x1p-600]%float)
  = [3; infinity; 0]%float.
Proof. reflexivity. Qed.

(** In binary64 too, only an elementwise non-negative vector can come back
    from [untransform_params (transform_params u)]. *)
Lemma binary64_round_trip_only_nonneg (u : list float) :
  Forall Binary64.not_nan u ->
  LocalLevel.untransform_params (LocalLevel.transform_params u) = u ->
  Forall Binary64.nonneg u.
Proof.
  unfold LocalLevel.untransform_params, LocalLevel.transform_params.
  intros Hu. induction Hu as [|x u Hx Hu IH]; simpl; intros E; constructor.
  - injection E as E1 _. rewrite <- E1. now apply sqrt_square_nonneg.
  - injection E as _ E2. now apply IH.
Qed.

(** ** The format strings of cell 24 *)

Example cell_24_specs :
  count_specs "- Original model:     %.4f, %.4f, %.4f, %.4f" = Some 4 /\
  count_specs "- Concentrated model: %.4f" = Some 1 /\
  count_specs "100%% of %d" = Some 1 /\
  count_specs "100%" = None.
Proof. repeat split. Qed.

Ltac count_cell_24 :=
  unfold cell_24, bind, print, format;
  change (count_specs "- Original model:     %.4f") with (Some 1);
  change (count_specs "- Concentrated model: %.4f") with (Some 1);
  change (count_specs "- Original model:     %.4f, %.4f, %.4f, %.4f") with (Some 4);
  change (count_specs "- Concentrated model: %.4f, %.4f, %.4f, %.4f") with (Some 4);
  cbv beta iota; rewrite length_app.

(** ** When [update] returns and what it leaves behind when it raises *)

Section UpdateOutcome.
Context {F : Type} {Kwargs : Type}.
Variable MLEModel_update : list F -> Kwargs -> M (Representation F) (list F).


Lemma LocalLevel_update_ok_iff params kwargs self ps s1 :
  MLEModel_update params kwargs self = (Ok ps, s1) ->
  fst (LocalLevel.update MLEModel_update params kwargs self) = Ok tt <->
  2 <= List.length ps /\
  getitem s1 "state_cov" 0 0 <> None /\ getitem s1 "obs_cov" 0 0 <> None.
Proof.
  intros Hs. split.
  - intros Hok.
    unfold LocalLevel.update, bind, index in Hok. rewrite Hs in Hok.
    destruct ps as [|p0 [|p1 ps]]; simpl in Hok; try discriminate.
    + unfold ret in Hok.
      destruct (setitem "state_cov" 0 0 p0 s1) as [[[]|e] s2]; discriminate.
    + unfold ret in Hok.
      destruct (setitem "state_cov" 0 0 p0 s1) as [[[]|e] s2] eqn:E1; [|discriminate].
      destruct (setitem "obs_cov" 0 0 p1 s2) as [[[]|e] s3] eqn:E2; [|discriminate].
      assert (H1 : getitem s1 "state_cov" 0 0 <> None)
        by (apply (setitem_ok_iff "state_cov" 0 0 p0); now rewrite E1).
      assert (H2 : getitem s2 "obs_cov" 0 0 <> None)
        by (apply (setitem_ok_iff "obs_cov" 0 0 p1); now rewrite E2).
      apply setitem_step in E1. destruct E1 as (_ & O1 & _).
      rewrite O1 in H2 by discriminate.
      simpl. repeat split; auto; lia.
  - intros (Hl & H0 & H1). destruct ps as [|p0 [|p1 ps]]; simpl in Hl; try lia.
    eapply LocalLevel_update_returns; eauto.
Qed.

Lemma LocalLevelConcentrated_update_ok_iff params kwargs self ps s1 :
  MLEModel_update params kwargs self = (Ok ps, s1) ->
  fst (LocalLevelConcentrated.update MLEModel_update params kwargs self) = Ok tt <->
  1 <= List.length ps /\ getitem s1 "obs_cov" 0 0 <> None.
Proof.
  intros Hs. split.
  - intros Hok.
    unfold LocalLevelConcentrated.update, bind, index in Hok. rewrite Hs in Hok.
    destruct ps as [|p0 ps]; simpl in Hok; try discriminate. unfold ret in Hok.
    destruct (setitem "obs_cov" 0 0 p0 s1) as [[[]|e] s2] eqn:E1; [|discriminate].
    split; [simpl; lia|]. apply (setitem_ok_iff "obs_cov" 0 0 p0). now rewrite E1.
  - intros (Hl & H0). destruct ps as [|p0 ps]; simpl in Hl; try lia.
    eapply LocalLevelConcentrated_update_returns; eauto.
Qed.

End UpdateOutcome.

(** X1.  [LocalLevel.update] returns exactly when the vector handed back by
    the inherited [update] has at least two entries and both covariance
    matrices have an entry [0,0]; it then has stored the first entry in
    [state_cov[0,0]] and the second in [obs_cov[0,0]], whatever further
    entries the vector holds. *)
Theorem LocalLevel_update_returns_iff (F Kwargs : Type)
    (MLEModel_update : list F -> Kwargs -> M (Representation F) (list F))
    params kwargs self ps s1 :
  MLEModel_update params kwargs self = (Ok ps, s1) ->
  let r := LocalLevel.update MLEModel_update params kwargs self in
  (fst r = Ok tt <->
   2 <= List.length ps /\
   getitem s1 "state_cov" 0 0 <> None /\ getitem s1 "obs_cov" 0 0 <> None) /\
  (fst r = Ok tt ->
   nth_error ps 0 <> None /\
   getitem (snd r) "state_cov" 0 0 = nth_error ps 0 /\
   getitem (snd r) "obs_cov" 0 0 = nth_error ps 1).
Proof.
  intros Hs r. split; [now apply LocalLevel_update_ok_iff|].
  subst r. destruct (LocalLevel.update MLEModel_update params kwargs self) as [o s'] eqn:Er.
  cbn [fst snd]. intros ->.
  destruct (LocalLevel_update_written _ _ _ _ _ _ _ Hs Er) as (p0 & p1 & N0 & N1 & G0 & G1).
  rewrite N0, N1. repeat split; auto. discriminate.
Qed.

Lemma LocalLevel_update_returns_iff_witness :
  let upd := Base.MLEModel_update (LocalLevel.transform_params (F := float)) in
  let self := snd (LocalLevel.__init__ (Base.MLEModel_init (F := float)) 1) in
  fst (LocalLevel.update upd [2; 3; 7]%float true self) = Ok tt <->
  2 <= List.length [2; 3; 7]%float /\
  getitem self "state_cov" 0 0 <> None /\ getitem self "obs_cov" 0 0 <> None.
Proof.
  intros upd self.
  apply (LocalLevel_update_returns_iff float bool upd [2; 3; 7]%float true self
           [2; 3; 7]%float self).
  reflexivity.
Defined.

(** X2.  A single parameter makes [LocalLevel.update] raise [IndexError], but
    only after it has overwritten [state_cov[0,0]] with that parameter: the
    exception leaves a model that differs from the one before the call in
    exactly that entry. *)
Theorem LocalLevel_update_half_written (F Kwargs : Type)
    (MLEModel_update : list F -> Kwargs -> M (Representation F) (list F))
    params kwargs self p0 s1 :
  MLEModel_update params kwargs self = (Ok [p0], s1) ->
  getitem s1 "state_cov" 0 0 <> None ->
  let r := LocalLevel.update MLEModel_update params kwargs self in
  fst r = Raise IndexError /\
  getitem (snd r) "state_cov" 0 0 = Some p0 /\
  unchanged_except [("state_cov", 0, 0)]%string s1 (snd r).
Proof.
  intros Hs H0 r. subst r. unfold LocalLevel.update, bind, index. rewrite Hs. simpl.
  unfold ret. destruct (setitem_ok "state_cov" 0 0 p0 s1 H0) as [s2 E].
  rewrite E. simpl. pose proof E as E'. apply setitem_step in E'. destruct E' as (W & _ & _).
  repeat split; auto.
  - replace s2 with (snd (setitem "state_cov" 0 0 p0 s1)) by now rewrite E.
    apply setitem_frame.
  - replace s2 with (snd (setitem "state_cov" 0 0 p0 s1)) by now rewrite E.
    apply setitem_frame.
Qed.

Lemma LocalLevel_update_half_written_witness :
  let upd := Base.MLEModel_update (LocalLevel.transform_params (F := float)) in
  let self := snd (LocalLevel.__init__ (Base.MLEModel_init (F := float)) 1) in
  let r := LocalLevel.update upd [5]%float true self in
  fst r = Raise IndexError /\
  getitem (snd r) "state_cov" 0 0 = Some 5%float /\
  unchanged_except [("state_cov", 0, 0)]%string self (snd r).
Proof.
  intros upd self.
  apply (LocalLevel_update_half_written float bool upd [5]%float true self 5%float self).
  - reflexivity.
  - discriminate.
Defined.



(** ** Successive updates *)

Lemma returns_params_alone {F P K} (upd : P -> K -> M (Representation F) (list F)) :
  returns_params upd -> leaves_model_alone upd.
Proof.
  intros Hr params kwargs self. destruct (Hr params kwargs) as [ps Hps].
  now rewrite Hps.
Qed.

Lemma key_cases (k k1 k2 : string * nat * nat) :
  k = k1 \/ k = k2 \/ ~ In k [k1; k2].
Proof.
  assert (Hdec : forall a b : string * nat * nat, {a = b} + {a <> b})
    by (repeat decide equality).
  destruct (Hdec k k1) as [E1|N1]; [now left|].
  destruct (Hdec k k2) as [E2|N2]; [now right; left|].
  right; right. intros [E|[E|[]]]; congruence.
Qed.

Section LastWins.
Context {F : Type} {Kwargs : Type}.
Variable MLEModel_update : list F -> Kwargs -> M (Representation F) (list F).
Hypothesis super_returns : returns_params MLEModel_update.

Lemma LocalLevel_update_last_wins p q kw kw' self :
  fst (LocalLevel.update MLEModel_update p kw self) = Ok tt ->
  fst (LocalLevel.update MLEModel_update q kw' self) = Ok tt ->
  let twice := LocalLevel.update MLEModel_update q kw'
                 (snd (LocalLevel.update MLEModel_update p kw self)) in
  let once := LocalLevel.update MLEModel_update q kw' self in
  fst twice = Ok tt /\
  filter_concentrated (snd twice) = filter_concentrated (snd once) /\
  forall name i j, getitem (snd twice) name i j = getitem (snd once) name i j.
Proof.
  pose proof (returns_params_alone _ super_returns) as Ha.
  destruct (super_returns p kw) as [ps Hp], (super_returns q kw') as [qs Hq].
  intros Hp_ok Hq_ok twice once. subst twice once.
  pose proof (LocalLevel_update_writes _ Ha p kw self) as [Ff Fp].
  pose proof (LocalLevel_update_writes _ Ha q kw' self) as [Gf Gq].
  destruct (LocalLevel.update MLEModel_update p kw self) as [o s1] eqn:Ep.
  cbn [fst snd] in *. subst o.
  pose proof (LocalLevel_update_writes _ Ha q kw' s1) as [Hf Hq'].
  destruct (LocalLevel_update_written _ _ _ _ _ _ _ (Hp self) Ep)
    as (p0 & p1 & _ & _ & P0 & P1).
  pose proof (proj1 (LocalLevel_update_ok_iff _ _ _ _ _ _ (Hq self)) Hq_ok) as (Hl & _ & _).
  assert (Htw : fst (LocalLevel.update MLEModel_update q kw' s1) = Ok tt).
  { apply (LocalLevel_update_ok_iff _ _ _ _ _ _ (Hq s1)).
    rewrite P0, P1. repeat split; auto; discriminate. }
  split; [exact Htw|]. split; [congruence|].
  destruct (LocalLevel.update MLEModel_update q kw' s1) as [ot st] eqn:Et.
  destruct (LocalLevel.update MLEModel_update q kw' self) as [oo so] eqn:Eo.
  cbn [fst snd] in *. subst ot oo.
  destruct (LocalLevel_update_written _ _ _ _ _ _ _ (Hq s1) Et)
    as (q0 & q1 & N0 & N1 & T0 & T1).
  destruct (LocalLevel_update_written _ _ _ _ _ _ _ (Hq self) Eo)
    as (q0' & q1' & N0' & N1' & O0 & O1).
  intros name i j.
  destruct (key_cases (name, i, j) ("state_cov"%string, 0, 0) ("obs_cov"%string, 0, 0))
    as [E|[E|Hn]].
  - inversion E; subst. congruence.
  - inversion E; subst. congruence.
  - rewrite Hq', Fp, Gq; auto.
Qed.

Lemma LocalLevelConcentrated_update_last_wins p q kw kw' self :
  fst (LocalLevelConcentrated.update MLEModel_update p kw self) = Ok tt ->
  fst (LocalLevelConcentrated.update MLEModel_update q kw' self) = Ok tt ->
  let twice := LocalLevelConcentrated.update MLEModel_update q kw'
                 (snd (LocalLevelConcentrated.update MLEModel_update p kw self)) in
  let once := LocalLevelConcentrated.update MLEModel_update q kw' self in
  fst twice = Ok tt /\
  filter_concentrated (snd twice) = filter_concentrated (snd once) /\
  forall name i j, getitem (snd twice) name i j = getitem (snd once) name i j.
Proof.
  pose proof (returns_params_alone _ super_returns) as Ha.
  destruct (super_returns p kw) as [ps Hp], (super_returns q kw') as [qs Hq].
  intros Hp_ok Hq_ok twice once. subst twice once.
  pose proof (LocalLevelConcentrated_update_writes _ Ha p kw self) as [Ff Fp].
  pose proof (LocalLevelConcentrated_update_writes _ Ha q kw' self) as [Gf Gq].
  destruct (LocalLevelConcentrated.update MLEModel_update p kw self) as [o s1] eqn:Ep.
  cbn [fst snd] in *. subst o.
  pose proof (LocalLevelConcentrated_update_writes _ Ha q kw' s1) as [Hf Hq'].
  destruct (LocalLevelConcentrated_update_written _ _ _ _ _ _ _ (Hp self) Ep)
    as (p0 & _ & P0).
  pose proof (proj1 (LocalLevelConcentrated_update_ok_iff _ _ _ _ _ _ (Hq self)) Hq_ok)
    as (Hl & _).
  assert (Htw : fst (LocalLevelConcentrated.update MLEModel_update q kw' s1) = Ok tt).
  { apply (LocalLevelConcentrated_update_ok_iff _ _ _ _ _ _ (Hq s1)).
    rewrite P0. split; auto; discriminate. }
  split; [exact Htw|]. split; [congruence|].
  destruct (LocalLevelConcentrated.update MLEModel_update q kw' s1) as [ot st] eqn:Et.
  destruct (LocalLevelConcentrated.update MLEModel_update q kw' self) as [oo so] eqn:Eo.
  cbn [fst snd] in *. subst ot oo.
  destruct (LocalLevelConcentrated_update_written _ _ _ _ _ _ _ (Hq s1) Et)
    as (q0 & N0 & T0).
  destruct (LocalLevelConcentrated_update_written _ _ _ _ _ _ _ (Hq self) Eo)
    as (q0' & N0' & O0).
  intros name i j.
  destruct (key_cases (name, i, j) ("obs_cov"%string, 0, 0) ("obs_cov"%string, 0, 0))
    as [E|[E|Hn]].
  - inversion E; subst. congruence.
  - inversion E; subst. congruence.
  - rewrite Hq', Fp, Gq; auto; intros [E|[]]; apply Hn; left; exact E.
Qed.

End LastWins.

(** X4.  The second of two [update] calls wins.  With an inherited [update]
    that only computes the vector it returns: if [update p] and [update q]
    each return on a model, then [update q] also returns after [update p], and
    the model it leaves is, entry for entry and in its flag, the one that
    [update q] alone leaves.  In particular a repeated [update] changes
    nothing. *)
Theorem update_last_wins (F Kwargs : Type)
    (MLEModel_update : list F -> Kwargs -> M (Representation F) (list F))
    (p q : list F) (kw kw' : Kwargs) (self : Representation F) :
  returns_params MLEModel_update ->
  (fst (LocalLevel.update MLEModel_update p kw self) = Ok tt ->
   fst (LocalLevel.update MLEModel_update q kw' self) = Ok tt ->
   let twice := LocalLevel.update MLEModel_update q kw'
                  (snd (LocalLevel.update MLEModel_update p kw self)) in
   let once := LocalLevel.update MLEModel_update q kw' self in
   fst twice = Ok tt /\
   filter_concentrated (snd twice) = filter_concentrated (snd once) /\
   forall name i j, getitem (snd twice) name i j = getitem (snd once) name i j) /\
  (fst (LocalLevelConcentrated.update MLEModel_update p kw self) = Ok tt ->
   fst (LocalLevelConcentrated.update MLEModel_update q kw' self) = Ok tt ->
   let twice := LocalLevelConcentrated.update MLEModel_update q kw'
                  (snd (LocalLevelConcentrated.update MLEModel_update p kw self)) in
   let once := LocalLevelConcentrated.update MLEModel_update q kw' self in
   fst twice = Ok tt /\
   filter_concentrated (snd twice) = filter_concentrated (snd once) /\
   forall name i j, getitem (snd twice) name i j = getitem (snd once) name i j).
Proof.
  intros Hr. split.
  - now apply LocalLevel_update_last_wins.
  - now apply LocalLevelConcentrated_update_last_wins.
Qed.

Lemma update_last_wins_witness :
  let upd := Base.MLEModel_update (LocalLevel.transform_params (F := float)) in
  let self := snd (LocalLevel.__init__ (Base.MLEModel_init (F := float)) 1) in
  let twice := LocalLevel.update upd [-4; 0.5]%float false
                 (snd (LocalLevel.update upd [2; 3]%float true self)) in
  let once := LocalLevel.update upd [-4; 0.5]%float false self in
  fst twice = Ok tt /\
  getitem (snd twice) "state_cov" 0 0 = getitem (snd once) "state_cov" 0 0 /\
  getitem (snd twice) "obs_cov" 0 0 = getitem (snd once) "obs_cov" 0 0.
Proof.
  intros upd self.
  destruct (update_last_wins float bool upd [2; 3]%float [-4; 0.5]%float true false self)
    as [Hll _].
  - intros params kwargs. eexists. intros s. reflexivity.
  - destruct Hll as (Hok & _ & Hget); [reflexivity|reflexivity|].
    split; [exact Hok|]. split; apply Hget.
Defined.

(** ** The constructors *)

Section Constructors.
Context {F : Type} `{Scalar F} {Endog : Type}.
Variable MLEModel_init : Endog -> nat -> string -> Representation F.

Lemma LocalLevel_init_writes endog :
  unchanged_except [("design", 0, 0); ("transition", 0, 0); ("selection", 0, 0)]%string
    (MLEModel_init endog 1 "diffuse")
    (snd (LocalLevel.__init__ MLEModel_init endog)).
Proof.
  unfold LocalLevel.__init__.
  apply (writes_bind [_] [_; _]); [apply writes_setitem|]; intros _.
  apply (writes_bind [_] [_]); [apply writes_setitem|]; intros _.
  apply writes_setitem.
Qed.

Lemma LocalLevelConcentrated_init_writes endog name i j :
  ~ In (name, i, j)
      [("design", 0, 0); ("transition", 0, 0); ("selection", 0, 0); ("state_cov", 0, 0)]%string ->
  getitem (snd (LocalLevelConcentrated.__init__ MLEModel_init endog)) name i j
  = getitem (MLEModel_init endog 1 "diffuse") name i j.
Proof.
  intros Hn.
  assert (Hw : writes_at_most
                 [("design", 0, 0); ("transition", 0, 0); ("selection", 0, 0);
                  ("state_cov", 0, 0)]%string
                 (setitem "design" 0 0 (fone (F := F)) ;;
                  setitem "transition" 0 0 fone ;;
                  setitem "selection" 0 0 fone ;;
                  setitem "state_cov" 0 0 fone)).
  { apply (writes_bind [_] [_; _; _]); [apply writes_setitem|]; intros _.
    apply (writes_bind [_] [_; _]); [apply writes_setitem|]; intros _.
    apply (writes_bind [_] [_]); [apply writes_setitem|]; intros _.
    apply writes_setitem. }
  specialize (Hw (MLEModel_init endog 1 "diffuse")). destruct Hw as [_ Hw].
  rewrite <- (Hw name i j Hn).
  unfold LocalLevelConcentrated.__init__, bind, set_filter_concentrated.
  destruct (setitem "design" 0 0 fone _) as [[[]|e1] s1]; [|reflexivity].
  destruct (setitem "transition" 0 0 fone s1) as [[[]|e2] s2]; [|reflexivity].
  destruct (setitem "selection" 0 0 fone s2) as [[[]|e3] s3]; [|reflexivity].
  destruct (setitem "state_cov" 0 0 fone s3) as [[[]|e4] s4]; reflexivity.
Qed.

End Constructors.

(** X5.  When the [LocalLevel] constructor returns, [design[0,0]],
    [transition[0,0]] and [selection[0,0]] are 1, and every other entry of
    every matrix, [state_cov] and [obs_cov] included, and the flag
    [filter_concentrated] are as the base constructor left them. *)
Theorem LocalLevel_init_effect (F : Type) `{Scalar F} (Endog : Type)
    (MLEModel_init : Endog -> nat -> string -> Representation F) (endog : Endog)
    (self : Representation F) :
  LocalLevel.__init__ MLEModel_init endog = (Ok tt, self) ->
  getitem self "design" 0 0 = Some fone /\
  getitem self "transition" 0 0 = Some fone /\
  getitem self "selection" 0 0 = Some fone /\
  unchanged_except [("design", 0, 0); ("transition", 0, 0); ("selection", 0, 0)]%string
    (MLEModel_init endog 1 "diffuse"%string) self.
Proof.
  intros Hinit.
  destruct (LocalLevel_init_entries _ _ _ Hinit) as (Hd & Ht & Hs).
  pose proof (LocalLevel_init_writes MLEModel_init endog) as Hw.
  rewrite Hinit in Hw. auto.
Qed.

Lemma LocalLevel_init_effect_witness :
  let self := snd (LocalLevel.__init__ (Base.MLEModel_init (F := float)) 1) in
  getitem self "design" 0 0 = Some 1%float /\
  getitem self "transition" 0 0 = Some 1%float /\
  getitem self "selection" 0 0 = Some 1%float /\
  unchanged_except [("design", 0, 0); ("transition", 0, 0); ("selection", 0, 0)]%string
    (Base.MLEModel_init (F := float) 1 1 "diffuse"%string) self.
Proof.
  intros self.
  destruct (LocalLevel_init_effect float nat Base.MLEModel_init 1 self)
    as (Hd & Ht & Hs & Hw); [reflexivity|].
  split; [exact Hd|]. split; [exact Ht|]. split; [exact Hs|]. exact Hw.
Defined.

(** X6.  When the [LocalLevelConcentrated] constructor returns,
    [design[0,0]], [transition[0,0]], [selection[0,0]] and [state_cov[0,0]]
    are 1 and [filter_concentrated] is [True]; every other entry of every
    matrix, [obs_cov] included, is as the base constructor left it. *)
Theorem LocalLevelConcentrated_init_effect (F : Type) `{Scalar F} (Endog : Type)
    (MLEModel_init : Endog -> nat -> string -> Representation F) (endog : Endog)
    (self : Representation F) :
  LocalLevelConcentrated.__init__ MLEModel_init endog = (Ok tt, self) ->
  getitem self "design" 0 0 = Some fone /\
  getitem self "transition" 0 0 = Some fone /\
  getitem self "selection" 0 0 = Some fone /\
  getitem self "state_cov" 0 0 = Some fone /\
  filter_concentrated self = true /\
  (forall name i j,
      ~ In (name, i, j)
          [("design", 0, 0); ("transition", 0, 0); ("selection", 0, 0);
           ("state_cov", 0, 0)]%string ->
      getitem self name i j = getitem (MLEModel_init endog 1 "diffuse"%string) name i j).
Proof.
  intros Hinit.
  destruct (LocalLevelConcentrated_init_entries _ _ _ Hinit) as (Hd & Ht & Hs & Hc & Hf).
  repeat split; auto.
  intros name i j Hn.
  pose proof (LocalLevelConcentrated_init_writes MLEModel_init endog name i j Hn) as Hw.
  rewrite Hinit in Hw. exact Hw.
Qed.

Lemma LocalLevelConcentrated_init_effect_witness :
  let self := snd (LocalLevelConcentrated.__init__ (Base.MLEModel_init (F := float)) 1) in
  getitem self "state_cov" 0 0 = Some 1%float /\
  filter_concentrated self = true /\
  getitem self "obs_cov" 0 0 = getitem (Base.MLEModel_init (F := float) 1 1 "diffuse"%string) "obs_cov" 0 0.
Proof.
  intros self.
  destruct (LocalLevelConcentrated_init_effect float nat Base.MLEModel_init 1 self)
    as (_ & _ & _ & Hc & Hf & Hw); [reflexivity|].
  split; [exact Hc|]. split; [exact Hf|].
  apply Hw. intros [E|[E|[E|[E|[]]]]]; discriminate E.
Defined.

(** ** Binary64: signs and NaN through the two transforms *)

Lemma square_abs (x : float) : square (abs x) = square x.
Proof.
  simpl. apply Prim2SF_inj. rewrite !mul_spec, abs_spec.
  destruct (Prim2SF x) as [s|s| |s m e]; simpl; try reflexivity;
    destruct s; reflexivity.
Qed.

Lemma SFeqb_refl x : x <> S754_nan -> SFeqb x x = true.
Proof.
  destruct x as [s|s| |s m e]; intros Hx; unfold SFeqb; simpl.
  - reflexivity.
  - destruct s; reflexivity.
  - contradiction.
  - destruct s; rewrite Z.compare_refl, Pos.compare_cont_refl; reflexivity.
Qed.

Lemma has_sign_not_nan s x : Binary64.has_sign s x -> x <> S754_nan.
Proof. destruct x; simpl; intros Hx; try discriminate. contradiction. Qed.

Lemma is_nan_Prim2SF x : is_nan x = match Prim2SF x with S754_nan => true | _ => false end.
Proof.
  unfold is_nan. rewrite eqb_spec.
  destruct (Prim2SF x) as [s|s| |s m e] eqn:E; try reflexivity;
    rewrite SFeqb_refl; try reflexivity; discriminate.
Qed.

Lemma is_nan_square (x : float) : is_nan (square x) = is_nan x.
Proof.
  rewrite !is_nan_Prim2SF. simpl. rewrite mul_spec.
  destruct (Prim2SF x) as [s|s| |s m e] eqn:E; try reflexivity.
  pose proof (SFmul_self_sign prec emax (S754_finite s m e)) as Hs.
  unfold SF64mul. destruct (SFmul prec emax (S754_finite s m e) (S754_finite s m e));
    try reflexivity.
  exfalso. apply Hs. discriminate.
Qed.

Lemma is_nan_sqrt (x : float) : is_nan (sqrt_ x) = is_nan x || (x <? 0)%float.
Proof.
  rewrite !is_nan_Prim2SF, ltb_spec. simpl. rewrite sqrt_spec.
  change (Prim2SF 0) with (S754_zero false).
  destruct (Prim2SF x) as [s|s| |s m e] eqn:E; try reflexivity.
  - destruct s; reflexivity.
  - destruct s; [reflexivity|].
    pose proof (SFsqrt_sign prec emax (S754_finite false m e) eq_refl) as Hs.
    unfold SF64sqrt. destruct (SFsqrt prec emax (S754_finite false m e)); try reflexivity.
    contradiction.
Qed.

(** X7.  Squaring forgets the sign: in binary64, [transform_params] gives the
    same vector for [u] and for the elementwise absolute value of [u], for
    both classes and for every [u], NaN and infinities included. *)
Theorem transform_params_abs (u : list float) :
  LocalLevel.transform_params (map abs u) = LocalLevel.transform_params u /\
  LocalLevelConcentrated.transform_params (map abs u)
  = LocalLevelConcentrated.transform_params u.
Proof.
  unfold LocalLevel.transform_params, LocalLevelConcentrated.transform_params.
  rewrite map_map. split; apply map_ext; intros x; apply square_abs.
Qed.

(** X8.  Where NaN comes from, in binary64: [transform_params] yields NaN at
    exactly the positions where its argument is NaN, so it never creates one;
    [untransform_params] yields NaN at exactly the positions where its
    argument is NaN or negative. *)
Theorem transforms_nan (u : list float) :
  map is_nan (LocalLevel.transform_params u) = map is_nan u /\
  map is_nan (LocalLevelConcentrated.transform_params u) = map is_nan u /\
  map is_nan (LocalLevel.untransform_params u)
  = map (fun x => is_nan x || (x <? 0)%float) u /\
  map is_nan (LocalLevelConcentrated.untransform_params u)
  = map (fun x => is_nan x || (x <? 0)%float) u.
Proof.
  unfold LocalLevel.transform_params, LocalLevelConcentrated.transform_params,
    LocalLevel.untransform_params, LocalLevelConcentrated.untransform_params.
  rewrite !map_map.
  repeat split; apply map_ext; intros x; auto using is_nan_square, is_nan_sqrt.
Qed.

(** X9.  In binary64, taking a NaN-free [u] through [transform_params] and
    back through [untransform_params] always gives an elementwise
    non-negative vector, for both classes; so a vector with a negative entry
    never comes back as it was. *)
Theorem binary64_round_trip_nonneg (u : list float) :
  Forall Binary64.not_nan u ->
  Forall Binary64.nonneg (LocalLevel.untransform_params (LocalLevel.transform_params u)) /\
  Forall Binary64.nonneg
    (LocalLevelConcentrated.untransform_params (LocalLevelConcentrated.transform_params u)) /\
  (LocalLevel.untransform_params (LocalLevel.transform_params u) = u ->
   Forall Binary64.nonneg u) /\
  (LocalLevelConcentrated.untransform_params (LocalLevelConcentrated.transform_params u) = u ->
   Forall Binary64.nonneg u).
Proof.
  intros Hu.
  assert (Hn : Forall Binary64.nonneg (map sqrt_ (map square u))).
  { rewrite map_map. apply Forall_map. eapply Forall_impl; [|exact Hu].
    intros x Hx. now apply sqrt_square_nonneg. }
  unfold LocalLevel.transform_params, LocalLevelConcentrated.transform_params,
    LocalLevel.untransform_params, LocalLevelConcentrated.untransform_params.
  repeat split; auto; intros E; rewrite E in Hn; exact Hn.
Qed.

Lemma binary64_round_trip_nonneg_witness :
  Forall Binary64.nonneg
    (LocalLevel.untransform_params (LocalLevel.transform_params [-3; 0.5; 0x1p600]%float)).
Proof.
  apply (binary64_round_trip_nonneg [-3; 0.5; 0x1p600]%float).
  repeat (constructor; [reflexivity|]). constructor.
Defined.

(** ** Binary64: the square root of a square *)

(** The rounding procedure of the IEEE specification, followed through a
    square and its square root.  A normal float is [m * 2^e] with a mantissa
    [2^52 <= m < 2^53]; its square is [m * m], of 105 or 106 bits, rounded to
    53 bits; the square root of that is within half a unit of [m], and so
    rounds back to [m]. *)

Section SquareRoot.
Local Open Scope Z_scope.

Lemma shifted_0 m : shifted m 0 (Build_shr_record m false false).
Proof.
  exists 0. simpl. repeat split; try lia; try discriminate; intros; lia.
Qed.

Lemma shr_1_spec m r s :
  0 <= m ->
  exists b, (b = 0 \/ b = 1) /\ m = 2 * shr_m (shr_1 (Build_shr_record m r s)) + b /\
    (shr_r (shr_1 (Build_shr_record m r s)) = true <-> b = 1) /\
    shr_s (shr_1 (Build_shr_record m r s)) = r || s.
Proof.
  intros Hm. destruct m as [|p|p]; [| |lia].
  - exists 0. simpl. repeat split; try lia; try discriminate; auto.
  - destruct p as [p|p|].
    + exists 1. simpl. repeat split; try lia; auto.
    + exists 0. simpl. repeat split; try lia; try discriminate; auto.
    + exists 1. simpl. repeat split; try lia; auto.
Qed.

Lemma shifted_shr_1 m k mrs :
  0 <= k -> 0 <= shr_m mrs -> shifted m k mrs -> shifted m (k + 1) (shr_1 mrs).
Proof.
  intros Hk Hq (low & Hm & Hlow & Hr & Hs).
  destruct mrs as [q r s]. cbn [shr_m shr_r shr_s] in *.
  destruct (shr_1_spec q r s Hq) as (b & Hb & Hq' & Hr' & Hs').
  destruct (shr_1 {| shr_m := q; shr_r := r; shr_s := s |}) as [q' r' s'].
  cbn [shr_m shr_r shr_s] in *.
  exists (b * 2 ^ k + low). cbn [shr_m shr_r shr_s].
  assert (Hp : 2 ^ (k + 1) = 2 * 2 ^ k) by (rewrite Z.pow_add_r by lia; lia).
  rewrite Hp. clear Hp. remember (2 ^ k) as P eqn:EP in *.
  assert (Hpos : 0 < P) by (subst P; apply Z.pow_pos_nonneg; lia).
  clear EP.
  assert (Hrs : r || s = true <-> low <> 0).
  { rewrite orb_true_iff. split.
    - intros [H|H]; [apply Hr in H|apply Hs in H]; lia.
    - intros H. destruct r; [now left|right]. apply Hs.
      assert (~ P <= 2 * low) by (intros H1; apply Hr in H1; discriminate). lia. }
  rewrite Hr', Hs', Hrs.
  subst m q.
  destruct Hb as [-> | ->];
    (split; [ring|split; [lia|split; [split; intros; lia|split; intros; lia]]]).
Qed.

Lemma shifted_iter m p :
  forall k mrs, 0 <= k -> 0 <= shr_m mrs -> shifted m k mrs ->
    shifted m (k + Zpos p) (iter_pos shr_1 p mrs) /\ 0 <= shr_m (iter_pos shr_1 p mrs).
Proof.
  induction p as [p IH|p IH|]; intros k mrs Hk Hq Hsh; simpl.
  - pose proof (shifted_shr_1 _ _ _ Hk Hq Hsh) as H1.
    pose proof (shr_1_nonneg _ Hq) as Q1.
    destruct (IH (k + 1) _ ltac:(lia) Q1 H1) as [H2 Q2].
    destruct (IH (k + 1 + Zpos p) _ ltac:(lia) Q2 H2) as [H3 Q3].
    split; [|exact Q3]. replace (k + Zpos p~1) with (k + 1 + Zpos p + Zpos p) by lia. exact H3.
  - destruct (IH k _ Hk Hq Hsh) as [H2 Q2].
    destruct (IH (k + Zpos p) _ ltac:(lia) Q2 H2) as [H3 Q3].
    split; [|exact Q3]. replace (k + Zpos p~0) with (k + Zpos p + Zpos p) by lia. exact H3.
  - split; [now apply shifted_shr_1|now apply shr_1_nonneg].
Qed.

(** Rounding to nearest, ties to even, of what [shifted] describes is within
    half a unit of the shifted integer. *)
Lemma round_shifted m k mrs :
  0 <= k -> shifted m k mrs ->
  let M := round_nearest_even (shr_m mrs) (loc_of_shr_record mrs) in
  shr_m mrs <= M <= shr_m mrs + 1 /\ 2 * Z.abs (M * 2 ^ k - m) <= 2 ^ k.
Proof.
  intros Hk (low & Hm & Hlow & Hr & Hs) M. subst M.
  destruct mrs as [q r s]. cbn [shr_m shr_r shr_s] in *.
  assert (Hpos : 0 < 2 ^ k) by (apply Z.pow_pos_nonneg; lia).
  destruct r, s; cbn [loc_of_shr_record round_nearest_even].
  - assert (2 ^ k <= 2 * low) by (apply Hr; reflexivity).
    assert (low <> 0 /\ 2 * low <> 2 ^ k) by (apply Hs; reflexivity). nia.
  - assert (2 ^ k <= 2 * low) by (apply Hr; reflexivity).
    assert (~ (low <> 0 /\ 2 * low <> 2 ^ k)) by (intros H1; apply Hs in H1; discriminate).
    destruct (Z.even q); nia.
  - assert (~ 2 ^ k <= 2 * low) by (intros H1; apply Hr in H1; discriminate). nia.
  - assert (~ 2 ^ k <= 2 * low) by (intros H1; apply Hr in H1; discriminate).
    assert (~ (low <> 0 /\ 2 * low <> 2 ^ k)) by (intros H1; apply Hs in H1; discriminate).
    nia.
Qed.

Lemma digits2_bounds m :
  2 ^ (Zpos (digits2_pos m) - 1) <= Zpos m < 2 ^ Zpos (digits2_pos m).
Proof.
  induction m as [m IH|m IH|]; cbn [digits2_pos].
  - rewrite Pos2Z.inj_succ. replace (Z.succ (Zpos (digits2_pos m)) - 1) with (Zpos (digits2_pos m)) by lia.
    rewrite Z.pow_succ_r by lia.
    replace (2 ^ Zpos (digits2_pos m)) with (2 * 2 ^ (Zpos (digits2_pos m) - 1)) in *
      by (rewrite <- Z.pow_succ_r by lia; f_equal; lia).
    lia.
  - rewrite Pos2Z.inj_succ. replace (Z.succ (Zpos (digits2_pos m)) - 1) with (Zpos (digits2_pos m)) by lia.
    rewrite Z.pow_succ_r by lia.
    replace (2 ^ Zpos (digits2_pos m)) with (2 * 2 ^ (Zpos (digits2_pos m) - 1)) in *
      by (rewrite <- Z.pow_succ_r by lia; f_equal; lia).
    lia.
  - simpl. lia.
Qed.

Lemma digits2_unique m d :
  2 ^ (d - 1) <= Zpos m < 2 ^ d -> Zpos (digits2_pos m) = d.
Proof.
  intros [Hl Hu]. pose proof (digits2_bounds m) as [Bl Bu].
  assert (Hd : 0 < d).
  { destruct (Z.ltb_spec 0 d) as [H|H]; [exact H|].
    exfalso. destruct (Z.eq_dec d 0) as [->|Hn]; [simpl in Hu; lia|].
    rewrite (Z.pow_neg_r 2 d) in Hu by lia. lia. }
  destruct (Z.lt_trichotomy (Zpos (digits2_pos m)) d) as [H|[H|H]]; [|exact H|].
  - exfalso. assert (2 ^ Zpos (digits2_pos m) <= 2 ^ (d - 1)) by (apply Z.pow_le_mono_r; lia). lia.
  - exfalso. assert (2 ^ d <= 2 ^ (Zpos (digits2_pos m) - 1)) by (apply Z.pow_le_mono_r; lia). lia.
Qed.

Lemma digits2_le m d :
  0 <= d -> Zpos m < 2 ^ d -> Zpos (digits2_pos m) <= d.
Proof.
  intros Hd Hu. pose proof (digits2_bounds m) as [Bl Bu].
  destruct (Z.leb_spec (Zpos (digits2_pos m)) d) as [H|H]; [exact H|].
  exfalso. assert (2 ^ d <= 2 ^ (Zpos (digits2_pos m) - 1)) by (apply Z.pow_le_mono_r; lia). lia.
Qed.

Lemma shr_no_shift mrs e n : n <= 0 -> shr mrs e n = (mrs, e).
Proof. intros Hn. destruct n; [reflexivity|lia|reflexivity]. Qed.

Lemma shr_shift m e n :
  0 <= m -> 0 < n ->
  exists mrs, shr (Build_shr_record m false false) e n = (mrs, e + n) /\
              shifted m n mrs /\ 0 <= shr_m mrs.
Proof.
  intros Hm Hn. destruct n as [|p|p]; try lia.
  exists (iter_pos shr_1 p (Build_shr_record m false false)). split; [reflexivity|].
  apply (shifted_iter m p 0); [lia|exact Hm|apply shifted_0].
Qed.

Lemma pow2_52 : 2 ^ 52 = 4503599627370496. Proof. reflexivity. Qed.
Lemma pow2_53 : 2 ^ 53 = 9007199254740992. Proof. reflexivity. Qed.
Lemma pow2_104 : 2 ^ 104 = 20282409603651670423947251286016. Proof. reflexivity. Qed.
Lemma pow2_105 : 2 ^ 105 = 40564819207303340847894502572032. Proof. reflexivity. Qed.
Lemma pow2_106 : 2 ^ 106 = 81129638414606681695789005144064. Proof. reflexivity. Qed.

(** The square of a 53-bit mantissa, rounded to 53 bits. *)
Lemma round_square sx m e :
  2 ^ 52 <= Zpos m < 2 ^ 53 -> -563 <= e <= 458 ->
  exists Mf Ef,
    binary_round_aux prec emax sx (Zpos (m * m)) (e + e) loc_Exact = S754_finite sx Mf Ef /\
    2 ^ 52 <= Zpos Mf < 2 ^ 53 /\
    (Ef = 2 * e + 52 \/ Ef = 2 * e + 53) /\
    Z.abs (Zpos Mf * 2 ^ (Ef - 2 * e) - Zpos m * Zpos m) < Zpos m.
Proof.
  rewrite pow2_52, pow2_53. intros Hm He.
  assert (HN : 2 ^ 104 <= Zpos (m * m) < 2 ^ 106)
    by (rewrite pow2_104, pow2_106, Pos2Z.inj_mul; nia).
  set (N := Zpos (m * m)) in *.
  assert (HNN : N = Zpos m * Zpos m) by (subst N; apply Pos2Z.inj_mul).
  unfold binary_round_aux, shr_fexp.
  cbn [shr_record_of_loc]. cbn [Zdigits2]. fold N.
  (* the number of digits of the square *)
  assert (Hd : (Zdigits2 N = 105 /\ N < 2 ^ 105) \/ (Zdigits2 N = 106 /\ 2 ^ 105 <= N)).
  { subst N. cbn [Zdigits2].
    destruct (Z.ltb_spec (Zpos (m * m)) (2 ^ 105)) as [H|H].
    - left. split; [|exact H]. apply digits2_unique. change (105 - 1) with 104. lia.
    - right. split; [|exact H]. apply digits2_unique. change (106 - 1) with 105. lia. }
  rewrite pow2_104, pow2_106 in HN. rewrite pow2_105 in Hd.
  set (d := Zdigits2 N) in *.
  assert (Hn : fexp prec emax (d + (e + e)) - (e + e) = d - 53).
  { unfold fexp, FloatOps.prec, FloatOps.emax, SpecFloat.emin. lia. }
  rewrite Hn.
  destruct (shr_shift N (e + e) (d - 53)) as (mrs1 & E1 & S1 & Q1); [lia|lia|].
  rewrite E1.
  pose proof (round_shifted N (d - 53) mrs1 ltac:(lia) S1) as [HM1 HM2].
  set (M := round_nearest_even (shr_m mrs1) (loc_of_shr_record mrs1)) in *.
  destruct S1 as (low & SN & Slow & _ & _).
  cbv beta iota zeta.
  set (q0 := shr_m mrs1) in *.
  assert (Hcases : (d = 105 /\ 2 ^ (d - 53) = 4503599627370496) \/
                   (d = 106 /\ 2 ^ (d - 53) = 9007199254740992)).
  { destruct Hd as [[Hd _]|[Hd _]]; rewrite Hd; [left|right]; split; reflexivity. }
  assert (HM : 4503599627370496 <= M <= 9007199254740992) by (destruct Hcases as [[? Hp]|[? Hp]]; rewrite Hp in *; lia).
  destruct (Z.eq_dec M 9007199254740992) as [EM|NM].
  - (* the mantissa rounded up to 2^53: one more shift *)
    assert (Hd105 : d = 105).
    { destruct Hcases as [[H _]|[H Hp]]; [exact H|]. exfalso. rewrite Hp, EM in HM2. nia. }
    rewrite EM, Hd105.
    exists 4503599627370496%positive, (2 * e + 53).
    assert (Hs : fexp prec emax (Zdigits2 9007199254740992 + (e + e + (105 - 53)))
                 - (e + e + (105 - 53)) = 1).
    { change (Zdigits2 9007199254740992) with 54.
      unfold fexp, FloatOps.prec, FloatOps.emax, SpecFloat.emin. lia. }
    rewrite Hs. cbn [shr iter_pos shr_1 shr_m].
    replace (e + e + (105 - 53) + 1) with (2 * e + 53) by lia.
    assert (Hle : (2 * e + 53 <=? emax - prec) = true)
      by (apply Z.leb_le; unfold FloatOps.prec, FloatOps.emax; lia).
    rewrite Hle. split; [reflexivity|]. split; [lia|]. split; [now right|].
    replace (2 * e + 53 - 2 * e) with 53 by lia. rewrite pow2_53.
    destruct Hcases as [[_ Hp]|[H _]]; [|lia].
    rewrite Hp, EM in HM2. lia.
  - destruct M as [|Mp|Mp] eqn:EMp; try lia.
    exists Mp, (e + e + (d - 53)).
    assert (Hdig : Zdigits2 (Zpos Mp) = 53).
    { cbn [Zdigits2]. apply digits2_unique. change (53 - 1) with 52.
      rewrite pow2_52, pow2_53. lia. }
    rewrite Hdig.
    rewrite shr_no_shift
      by (unfold fexp, FloatOps.prec, FloatOps.emax, SpecFloat.emin; lia).
    cbn [shr_m].
    assert (Hle : (e + e + (d - 53) <=? emax - prec) = true)
      by (apply Z.leb_le; unfold FloatOps.prec, FloatOps.emax; lia).
    rewrite Hle. split; [reflexivity|]. split; [lia|].
    split; [destruct Hcases as [[H _]|[H _]]; rewrite H; lia|].
    replace (e + e + (d - 53) - 2 * e) with (d - 53) by lia.
    destruct Hcases as [[H Hp]|[H Hp]]; rewrite Hp in *.
    + lia.
    + destruct Hd as [[Hd' _]|[_ Hd']]; [lia|]. nia.
Qed.

Lemma loc_of_shr_record_of_loc m l : loc_of_shr_record (shr_record_of_loc m l) = l.
Proof. destruct l as [|[]]; reflexivity. Qed.

Lemma shr_m_of_loc m l : shr_m (shr_record_of_loc m l) = m.
Proof. destruct l as [|[]]; reflexivity. Qed.

(** Rounding the integer square root [q] of [T], with remainder [r], to the
    nearest integer gives [m] when [T] is within [m] of [m * m]. *)
Lemma sqrt_nearest (m T q r : Z) :
  0 < m -> Z.abs (T - m * m) < m ->
  T = q * q + r -> 0 <= r <= 2 * q ->
  round_nearest_even q
    (if r =? 0 then loc_Exact else loc_Inexact (if r <=? q then Lt else Gt)) = m.
Proof.
  intros Hm HT HTq Hr.
  assert (Hq : (q = m /\ r <= q) \/ (q = m - 1 /\ q < r)) by nia.
  destruct Hq as [[-> Hrq]|[-> Hrq]].
  - destruct (r =? 0); [reflexivity|].
    destruct (Z.leb_spec r m) as [_|H]; [reflexivity|lia].
  - destruct (Z.eqb_spec r 0) as [H|_]; [lia|].
    destruct (Z.leb_spec r (m - 1)) as [H|_]; [lia|].
    cbn [round_nearest_even]. lia.
Qed.

Lemma sqrt_core_aligned Mf Ef e k :
  Zdigits2 (Zpos Mf) = 53 -> -563 <= e <= 458 ->
  Ef = 2 * e + k -> k = 52 \/ k = 53 ->
  SFsqrt_core_binary prec emax (Zpos Mf) Ef =
  (let (q, r) := Z.sqrtrem (Zpos Mf * 2 ^ k) in
   (q, e, if r =? 0 then loc_Exact else loc_Inexact (if r <=? q then Lt else Gt))).
Proof.
  intros Hdig He HEf Hk. unfold SFsqrt_core_binary. rewrite Hdig.
  assert (H1 : Z.div2 (53 + Ef + 1) = e + 53).
  { rewrite Z.div2_div. subst Ef.
    destruct Hk as [-> | ->]; symmetry;
      [apply (Z.div_unique _ 2 _ 0)|apply (Z.div_unique _ 2 _ 1)]; lia. }
  assert (H2 : Z.div2 Ef = e + 26).
  { rewrite Z.div2_div. subst Ef.
    destruct Hk as [-> | ->]; symmetry;
      [apply (Z.div_unique _ 2 _ 0)|apply (Z.div_unique _ 2 _ 1)]; lia. }
  rewrite H1, H2.
  assert (He' : Z.min (fexp prec emax (e + 53)) (e + 26) = e)
    by (unfold fexp, FloatOps.prec, FloatOps.emax, SpecFloat.emin; lia).
  rewrite He'.
  assert (Hs : Ef - 2 * e = k) by lia. rewrite Hs.
  destruct Hk as [-> | ->]; cbv iota; rewrite Z.shiftl_mul_pow2 by lia; reflexivity.
Qed.

Lemma digits_53 m : 2 ^ 52 <= Zpos m < 2 ^ 53 -> Zdigits2 (Zpos m) = 53.
Proof. intros H. cbn [Zdigits2]. apply digits2_unique. exact H. Qed.

(** The square root of such a rounded square, rounded to 53 bits, is the
    mantissa that was squared. *)
Lemma sqrt_rounded_square m e Mf Ef :
  2 ^ 52 <= Zpos m < 2 ^ 53 -> -563 <= e <= 458 ->
  2 ^ 52 <= Zpos Mf < 2 ^ 53 ->
  Ef = 2 * e + 52 \/ Ef = 2 * e + 53 ->
  Z.abs (Zpos Mf * 2 ^ (Ef - 2 * e) - Zpos m * Zpos m) < Zpos m ->
  SFsqrt prec emax (S754_finite false Mf Ef) = S754_finite false m e.
Proof.
  intros Hm He HMf HEf HT.
  assert (Hk : exists k, Ef = 2 * e + k /\ (k = 52 \/ k = 53))
    by (destruct HEf; [exists 52|exists 53]; auto).
  destruct Hk as (k & HEk & Hk).
  replace (Ef - 2 * e) with k in HT by lia.
  cbn [SFsqrt].
  rewrite (sqrt_core_aligned Mf Ef e k (digits_53 _ HMf) He HEk Hk).
  assert (HT0 : 0 <= Zpos Mf * 2 ^ k)
    by (apply Z.mul_nonneg_nonneg; [lia|apply Z.pow_nonneg; lia]).
  pose proof (Z.sqrtrem_spec _ HT0) as Hsq.
  destruct (Z.sqrtrem (Zpos Mf * 2 ^ k)) as [q r]. destruct Hsq as [HTq Hr].
  pose proof (sqrt_nearest (Zpos m) _ q r ltac:(lia) HT HTq Hr) as Hround.
  assert (Hq : 0 <= q < 2 ^ 53) by (rewrite pow2_52, pow2_53 in *; nia).
  assert (Hqd : fexp prec emax (Zdigits2 q + e) - e <= 0).
  { assert (Hq53 : Zdigits2 q <= 53).
    { destruct q as [|qp|qp]; cbn [Zdigits2]; try lia.
      apply digits2_le; lia. }
    unfold fexp, FloatOps.prec, FloatOps.emax, SpecFloat.emin. lia. }
  unfold binary_round_aux, shr_fexp.
  rewrite (shr_no_shift _ _ _ Hqd).
  rewrite loc_of_shr_record_of_loc, shr_m_of_loc, Hround.
  rewrite (digits_53 _ Hm).
  rewrite shr_no_shift by (unfold fexp, FloatOps.prec, FloatOps.emax, SpecFloat.emin; lia).
  cbn [shr_record_of_loc shr_m].
  assert (Hle : (e <=? emax - prec) = true)
    by (apply Z.leb_le; unfold FloatOps.prec, FloatOps.emax; lia).
  now rewrite Hle.
Qed.

End SquareRoot.

Lemma valid_normal s m e :
  valid_binary (S754_finite s m e) = true -> (-563 <= e)%Z ->
  (2 ^ 52 <= Zpos m < 2 ^ 53)%Z.
Proof.
  cbn [SpecFloat.valid_binary]. unfold bounded, canonical_mantissa.
  intros Hv He. apply andb_true_iff in Hv. destruct Hv as [Hc _].
  apply Z.eqb_eq in Hc.
  assert (Hd : Zpos (digits2_pos m) = 53%Z)
    by (revert Hc; unfold fexp, FloatOps.prec, FloatOps.emax, SpecFloat.emin; lia).
  pose proof (digits2_bounds m) as Hb. rewrite Hd in Hb. exact Hb.
Qed.

Lemma in_range_cases x :
  Binary64.in_range x = true ->
  (exists s, Prim2SF x = S754_zero s) \/
  (exists s m e, Prim2SF x = S754_finite s m e /\
                 (2 ^ 52 <= Zpos m < 2 ^ 53)%Z /\ (-563 <= e <= 458)%Z).
Proof.
  unfold Binary64.in_range. rewrite eqb_spec, leb_spec, ltb_spec, abs_spec.
  change (Prim2SF 0) with (S754_zero false).
  change (Prim2SF 0x1p-511) with (S754_finite false 4503599627370496 (-563)).
  change (Prim2SF 0x1p511) with (S754_finite false 4503599627370496 459).
  pose proof (Prim2SF_valid x) as Hv.
  destruct (Prim2SF x) as [s|s| |s m e]; cbn [SFabs].
  - intros _. left. now exists s.
  - discriminate.
  - discriminate.
  - intros H. right. exists s, m, e. split; [reflexivity|].
    apply orb_true_iff in H. destruct H as [H|H]; [discriminate H|].
    apply andb_true_iff in H. destruct H as [Hlo Hhi].
    assert (Hl : (-563 <= e)%Z).
    { unfold SFleb, SFcompare in Hlo.
      destruct (Z.compare_spec (-563) e) as [H|H|H]; first [lia|discriminate Hlo]. }
    pose proof (valid_normal s m e Hv Hl) as Hm.
    split; [exact Hm|]. split; [exact Hl|].
    unfold SFltb, SFcompare in Hhi.
    destruct (Z.compare_spec e 459) as [H|H|H]; [|lia|discriminate Hhi].
    exfalso. rewrite Pos.compare_cont_spec in Hhi.
    rewrite pow2_52 in Hm.
    destruct (Pos.compare_spec m 4503599627370496) as [C|C|C];
      [discriminate Hhi| |discriminate Hhi].
    apply Pos2Z.pos_lt_pos in C. destruct Hm as [Hm _]. apply Z.le_ngt in Hm. contradiction.
Qed.

(** In binary64, the square root of a square is the absolute value, as long
    as the square neither overflows nor underflows. *)
Lemma sqrt_square_abs (x : float) : Binary64.in_range x = true -> sqrt (x * x) = abs x.
Proof.
  intros Hx. apply Prim2SF_inj. rewrite sqrt_spec, mul_spec, abs_spec.
  destruct (in_range_cases x Hx) as [[s E]|(s & m & e & E & Hm & He)]; rewrite E.
  - destruct s; reflexivity.
  - unfold SF64mul. cbn [SFmul SFabs]. rewrite xorb_nilpotent.
    destruct (round_square false m e Hm He) as (Mf & Ef & ER & HMf & HEf & HT).
    rewrite ER. unfold SF64sqrt. now apply sqrt_rounded_square.
Qed.

Lemma in_range_not_nan x : Binary64.in_range x = true -> Binary64.not_nan x.
Proof.
  intros Hx. unfold Binary64.not_nan. rewrite is_nan_Prim2SF.
  destruct (in_range_cases x Hx) as [[s E]|(s & m & e & E & _)]; rewrite E; reflexivity.
Qed.

(** Comparing with [==], a float equals its absolute value exactly when it is
    [>= 0]; NaN is neither. *)
Lemma abs_eqb_nonneg (x : float) : (abs x =? x)%float = (0 <=? x)%float.
Proof.
  rewrite eqb_spec, leb_spec, abs_spec. change (Prim2SF 0) with (S754_zero false).
  destruct (Prim2SF x) as [s|s| |s m e]; try reflexivity.
  - destruct s; reflexivity.
  - destruct s; [reflexivity|].
    apply SFeqb_refl. discriminate.
Qed.

Lemma array_equal_abs (u : list float) :
  Binary64.array_equal (map abs u) u <-> Forall Binary64.nonneg u.
Proof.
  unfold Binary64.array_equal, Binary64.nonneg. induction u as [|x u IH]; simpl.
  - split; constructor.
  - split; intros Hu; inversion Hu; subst; constructor;
      try (now apply IH); now rewrite ?abs_eqb_nonneg in *.
Qed.

(** ** The round trip, in binary64 *)

(** C8, amended.  In binary64, for both classes and for every [u] whose
    entries are zero or of magnitude in [[2^-511, 2^511)]:
    [untransform_params (transform_params u)] is the elementwise absolute
    value of [u], bit for bit; going on through [transform_params] gives
    [transform_params u] again, so that squaring after the square root is
    the identity on every constrained vector that [transform_params]
    produced; the vector that comes back is [u] itself only if [u] is
    elementwise non-negative, and it compares equal to [u] under [==]
    exactly when [u] is elementwise non-negative. *)
Theorem binary64_round_trip_in_range (u : list float) :
  Forall (fun x => Binary64.in_range x = true) u ->
  let back := LocalLevel.untransform_params (LocalLevel.transform_params u) in
  let back_conc :=
    LocalLevelConcentrated.untransform_params (LocalLevelConcentrated.transform_params u) in
  (back = map abs u /\ back_conc = map abs u) /\
  (LocalLevel.transform_params back = LocalLevel.transform_params u /\
   LocalLevelConcentrated.transform_params back_conc
   = LocalLevelConcentrated.transform_params u) /\
  ((back = u -> Forall Binary64.nonneg u) /\
   (back_conc = u -> Forall Binary64.nonneg u)) /\
  ((Binary64.array_equal back u <-> Forall Binary64.nonneg u) /\
   (Binary64.array_equal back_conc u <-> Forall Binary64.nonneg u)).
Proof.
  intros Hu.
  assert (Habs : map sqrt_ (map square u) = map abs u).
  { induction Hu as [|x u Hx Hu IH]; [reflexivity|].
    cbn [map]. rewrite IH. f_equal. exact (sqrt_square_abs x Hx). }
  assert (Hsq : map square (map abs u) = map square u)
    by (rewrite map_map; apply map_ext; intros x; apply square_abs).
  assert (Hnn : Forall Binary64.not_nan u)
    by (eapply Forall_impl; [|exact Hu]; intros x; apply in_range_not_nan).
  unfold LocalLevel.transform_params, LocalLevelConcentrated.transform_params,
    LocalLevel.untransform_params, LocalLevelConcentrated.untransform_params.
  cbv zeta. rewrite Habs, Hsq.
  split; [split; reflexivity|]. split; [split; reflexivity|].
  assert (Honly : map abs u = u -> Forall Binary64.nonneg u).
  { intros E. apply (binary64_round_trip_only_nonneg u Hnn).
    unfold LocalLevel.transform_params, LocalLevel.untransform_params.
    now rewrite Habs. }
  split; [split; exact Honly|].
  split; apply array_equal_abs.
Qed.

Lemma binary64_round_trip_in_range_witness :
  LocalLevel.untransform_params
    (LocalLevel.transform_params [-3; 0x1.999999999999ap-4; 0; 0x1p300; -0x1.fffffffffffffp-5]%float)
  = [3; 0x1.999999999999ap-4; 0; 0x1p300; 0x1.fffffffffffffp-5]%float /\
  LocalLevelConcentrated.transform_params
    (LocalLevelConcentrated.untransform_params
       (LocalLevelConcentrated.transform_params [-3; 0x1.999999999999ap-4; 0; 0x1p300; -0x1.fffffffffffffp-5]%float))
  = LocalLevelConcentrated.transform_params [-3; 0x1.999999999999ap-4; 0; 0x1p300; -0x1.fffffffffffffp-5]%float.
Proof.
  destruct (binary64_round_trip_in_range [-3; 0x1.999999999999ap-4; 0; 0x1p300; -0x1.fffffffffffffp-5]%float)
    as ((Hback & _) & (_ & Hconc) & _).
  - repeat (constructor; [reflexivity|]). constructor.
  - split; [exact Hback|exact Hconc].
Defined.

(** ** The two printing cells *)

(** X10.  What cell 24 prints.  Started on an empty output it prints the two
    log-likelihood lines first.  If the unconcentrated fit does not have
    exactly four parameters it then raises [TypeError] with four lines
    printed; if it has and the concentrated fit does not have exactly three,
    it raises [TypeError] with five lines printed; otherwise it returns with
    six lines, the last one holding the concentrated parameters followed by
    the scale. *)
Theorem cell_24_output {F} (res_ar res_ar_conc : MLEResults F) :
  let r := cell_24 res_ar res_ar_conc [] in
  let head :=
    [ ("Loglikelihood"%string, []);
      ("- Original model:     %.4f"%string, [llf res_ar]);
      ("- Concentrated model: %.4f"%string, [llf res_ar_conc]);
      (String "010"%char "Parameters"%string, []) ] in
  let original := ("- Original model:     %.4f, %.4f, %.4f, %.4f"%string, params res_ar) in
  let concentrated :=
    ("- Concentrated model: %.4f, %.4f, %.4f, %.4f"%string,
     params res_ar_conc ++ [scale res_ar_conc]) in
  (List.length (params res_ar) <> 4 -> r = (Raise TypeError, head)) /\
  (List.length (params res_ar) = 4 -> List.length (params res_ar_conc) <> 3 ->
   r = (Raise TypeError, head ++ [original])) /\
  (List.length (params res_ar) = 4 -> List.length (params res_ar_conc) = 3 ->
   r = (Ok tt, head ++ [original; concentrated])).
Proof.
  intros r head original concentrated. subst r head original concentrated.
  count_cell_24.
  destruct (Nat.eqb_spec 4 (List.length (params res_ar))) as [E1|E1];
    destruct (Nat.eqb_spec 4 (List.length (params res_ar_conc) + List.length [scale res_ar_conc]))
      as [E2|E2];
    simpl in E2; simpl; repeat split; intros; try reflexivity; lia.
Qed.

Lemma cell_24_output_witness :
  cell_24 {| params := [1; 2; 3]%float; scale := 4%float; llf := 5%float |}
          {| params := [1; 2; 3]%float; scale := 4%float; llf := 6%float |} []
  = (Raise TypeError,
     [ ("Loglikelihood"%string, []);
       ("- Original model:     %.4f"%string, [5%float]);
       ("- Concentrated model: %.4f"%string, [6%float]);
       (String "010"%char "Parameters"%string, []) ]).
Proof.
  apply (cell_24_output {| params := [1; 2; 3]%float; scale := 4%float; llf := 5%float |}
           {| params := [1; 2; 3]%float; scale := 4%float; llf := 6%float |}).
  simpl. discriminate.
Defined.

Ltac count_cell_20 :=
  unfold cell_20, bind, print, format, index;
  change (count_specs "var.level     = %.5f") with (Some 1);
  change (count_specs "var.irregular = %.5f") with (Some 1);
  change (count_specs "scale         = %.5f") with (Some 1);
  change (count_specs "h * scale     = %.5f") with (Some 1);
  cbv beta iota.

(** X11.  What cell 20 prints.  It returns exactly when the unconcentrated
    fit has at least two parameters and the concentrated fit at least one, as
    fits of [LocalLevel] and [LocalLevelConcentrated] with their declared
    numbers of parameters do; the only exception it can raise is
    [IndexError].  When it returns it has printed six lines, the last with
    the product of the first concentrated parameter and the scale. *)
Theorem cell_20_output {F} `{Scalar F} `{Times F} (res res_conc : MLEResults F) :
  let r := cell_20 res res_conc [] in
  (fst r = Ok tt <->
   2 <= List.length (params res) /\ 1 <= List.length (params res_conc)) /\
  (fst r = Ok tt \/ fst r = Raise IndexError) /\
  (List.length (params res) = List.length (LocalLevel._start_params (F := F)) ->
   List.length (params res_conc) = List.length (LocalLevelConcentrated._start_params (F := F)) ->
   fst r = Ok tt) /\
  (forall p0 p1 ps h hs,
      params res = p0 :: p1 :: ps -> params res_conc = h :: hs ->
      snd r =
      [ ("Original model"%string, []);
        ("var.level     = %.5f"%string, [p0]);
        ("var.irregular = %.5f"%string, [p1]);
        (String "010"%char "Concentrated model"%string, []);
        ("scale         = %.5f"%string, [scale res_conc]);
        ("h * scale     = %.5f"%string, [times h (scale res_conc)]) ]).
Proof.
  intros r. subst r. count_cell_20.
  destruct (params res) as [|p0 [|p1 ps]]; destruct (params res_conc) as [|h hs];
    cbn [nth_error List.length Nat.eqb ret raise fst snd app].
  all: split; [split; [intros E; try discriminate E; split; lia|intros [E1 E2]; try lia; reflexivity]|].
  all: split; [first [now left|now right]|].
  all: split; [intros E1 E2; try discriminate E1; try discriminate E2; reflexivity|].
  all: intros q0 q1 qs k ks E1 E2; try discriminate E1; try discriminate E2.
  injection E1 as -> -> _. injection E2 as -> _. reflexivity.
Qed.

Lemma cell_20_output_witness :
  fst (cell_20 {| params := [0.25; 3]%float; scale := 0.25%float; llf := 5%float |}
               {| params := [12]%float; scale := 0.25%float; llf := 5%float |} [])
  = Ok tt.
Proof.
  destruct (cell_20_output {| params := [0.25; 3]%float; scale := 0.25%float; llf := 5%float |}
              {| params := [12]%float; scale := 0.25%float; llf := 5%float |})
    as (_ & _ & Hdim & _).
  apply Hdim; reflexivity.
Defined.


(** ** The two classes side by side *)

Lemma concentrated_is_level_one_witness :
  getitem (snd (LocalLevel.update
                  (Base.MLEModel_update (LocalLevel.transform_params (F := float)))
                  [fone; 4%float] true
                  (snd (LocalLevel.__init__ (Base.MLEModel_init (F := float)) 1))))
    "obs_cov" 0 0
  = getitem (snd (LocalLevelConcentrated.update
                    (Base.MLEModel_update (LocalLevel.transform_params (F := float)))
                    [4%float] true
                    (snd (LocalLevelConcentrated.__init__ (Base.MLEModel_init (F := float)) 1))))
      "obs_cov" 0 0.
Proof.
  assert (H3 : fst (LocalLevelConcentrated.__init__ (Base.MLEModel_init (F := float)) 1) = Ok tt)
    by reflexivity.
  exact (proj1 (proj2 (concentrated_is_level_one (F := float) Base.MLEModel_init
                         (Base.MLEModel_update (LocalLevel.transform_params (F := float)))
                         1 4%float true true
                         (fun s => eq_refl) (fun s => eq_refl) H3)) "obs_cov"%string 0 0).
Defined.
